(** * A sphere ray tracer: model and verification

    Shallow embedding of [basic-raytracing/raytracer.js] (spheres with
    ambient, point and directional lights) and of its earlier, unlit
    variant (same projection, intersection, closest-hit loop and pixel
    write; [TraceRay] returns the flat sphere colour).

    Numbers.  JavaScript numbers are modelled as exact real numbers
    ([R]).  The type [num] adds the three values that are not real
    numbers, [Infinity], [-Infinity] and [NaN]: ray parameters and ray
    bounds are of that type, and a division whose divisor can be zero
    is [num_div].  Rounding and overflow are outside the model. *)

From Stdlib Require Import Reals Lra List Bool ZArith Lia Permutation.
Import ListNotations.

Open Scope R_scope.

(** ** Numbers with [Infinity] *)

Inductive num : Type :=
| Fin (v : R)
| Infinity
| NegInfinity
| NaN.

(** [a < b] on JS numbers: false as soon as one side is [NaN]. *)
Definition num_ltb (a b : num) : bool :=
  match a, b with
  | NaN, _ | _, NaN => false
  | Fin u, Fin v => if Rlt_dec u v then true else false
  | Fin _, Infinity => true
  | NegInfinity, Fin _ => true
  | NegInfinity, Infinity => true
  | _, _ => false
  end.

(** [a <= b] on JS numbers: false as soon as one side is [NaN]. *)
Definition num_leb (a b : num) : bool :=
  match a, b with
  | NaN, _ | _, NaN => false
  | Fin u, Fin v => if Rle_dec u v then true else false
  | _, Infinity => true
  | NegInfinity, _ => true
  | _, _ => false
  end.

(** [n / d] for real [n] and a real [d >= 0] that can be zero (a sum
    of squares: the zero is [+0]): a positive number over zero is
    [Infinity], a negative one [-Infinity], and [0 / 0] is [NaN]. *)
Definition num_div (n d : R) : num :=
  if Req_dec_T d 0 then
    if Rlt_dec 0 n then Infinity
    else if Rlt_dec n 0 then NegInfinity
    else NaN
  else Fin (n / d).

(** [a >= b] is [b <= a]. *)
Definition num_geb (a b : num) : bool := num_leb b a.

(** The finite value carried by a number; [multiply(D, closest_t)] is
    only evaluated after a sphere was selected, when [closest_t] is
    finite (lemma [closest_hit_some_finite] below). *)
Definition num_val (a : num) : R :=
  match a with
  | Fin v => v
  | _ => 0
  end.

(** ** Data model *)

Record Vec : Type := mkVec { x : R; y : R; z : R }.

Record Color : Type := mkColor { r : R; g : R; b : R }.

Record Sphere : Type := mkSphere {
  center : Vec;
  radius : R;
  color : Color;
  specular : R
}.

(** [light.type] is one of ["ambient"], ["point"], and anything else is
    handled as directional. *)
Inductive Light : Type :=
| ambient (intensity : R)
| point (intensity : R) (position : Vec)
| directional (intensity : R) (direction : Vec).

Definition intensity (light : Light) : R :=
  match light with
  | ambient k | point k _ | directional k _ => k
  end.

Record Scene : Type := mkScene {
  spheres : list Sphere;
  lights : list Light
}.

(** ** Vector math helpers *)

Definition dot (a b : Vec) : R :=
  x a * x b + y a * y b + z a * z b.

Definition subtract (a b : Vec) : Vec :=
  {| x := x a - x b; y := y a - y b; z := z a - z b |}.

Definition add (a b : Vec) : Vec :=
  {| x := x a + x b; y := y a + y b; z := z a + z b |}.

Definition multiply (v : Vec) (scalar : R) : Vec :=
  {| x := x v * scalar; y := y v * scalar; z := z v * scalar |}.

(** [divide] by a scalar that is not 0; the one call, in [TraceRay],
    treats the zero scalar apart. *)
Definition divide (v : Vec) (scalar : R) : Vec :=
  {| x := x v / scalar; y := y v / scalar; z := z v / scalar |}.

Definition length (v : Vec) : R :=
  sqrt (x v * x v + y v * y v + z v * z v).

(** ** Viewport constants and projection *)

Definition Vw : R := 1.
Definition Vh : R := 1.
Definition d : R := 1.

(** Camera origin. *)
Definition O : Vec := {| x := 0; y := 0; z := 0 |}.

(** [Cw], [Ch] are the canvas width and height, read from the host
    canvas; they are parameters of every function that reads them.
    The quotients are real numbers: the function is modelled for a
    canvas with [Cw <> 0] and [Ch <> 0] ([render] on an empty canvas
    runs no iteration and never calls it). *)
Definition CanvasToViewport (Cw Ch : R) (x y : R) : Vec :=
  mkVec ((x * Vw) / Cw) ((y * Vh) / Ch) d.

(** ** Ray-sphere intersection *)

Definition IntersectRaySphere (O D : Vec) (sphere : Sphere) : num * num :=
  let CO := subtract O (center sphere) in
  let a := dot D D in
  let b := 2 * dot CO D in
  let c := dot CO CO - radius sphere * radius sphere in
  let discriminant := b * b - 4 * a * c in
  if Rlt_dec discriminant 0 then (Infinity, Infinity)
  else
    let sqrtD := sqrt discriminant in
    let t1 := num_div (- b + sqrtD) (2 * a) in
    let t2 := num_div (- b - sqrtD) (2 * a) in
    (t1, t2).

(** ** The closest-hit loop of [TraceRay]

    The loop state is the pair of locals [(closest_t, closest_sphere)];
    [null] is [None]. *)

Definition LoopState : Type := (num * option Sphere)%type.

(** One guarded update:
    [if (t >= t_min && t <= t_max && t < closest_t) { ... }]. *)
Definition try_root (t_min t_max : num) (sphere : Sphere) (t : num)
  (st : LoopState) : LoopState :=
  if num_geb t t_min && num_leb t t_max && num_ltb t (fst st)
  then (t, Some sphere)
  else st.

(** The body of [for (const sphere of scene.spheres)]. *)
Definition closest_step (O D : Vec) (t_min t_max : num)
  (st : LoopState) (sphere : Sphere) : LoopState :=
  let '(t1, t2) := IntersectRaySphere O D sphere in
  try_root t_min t_max sphere t2 (try_root t_min t_max sphere t1 st).

Definition closest_hit (sphs : list Sphere) (O D : Vec) (t_min t_max : num)
  : LoopState :=
  fold_left (closest_step O D t_min t_max) sphs (Infinity, None).

(** ** The unlit variant: [TraceRay] returns the flat sphere colour *)

Module Unlit.

(** Background colour (black in this variant). *)
Definition BACKGROUND_COLOR : Color := {| r := 0; g := 0; b := 0 |}.

(** [scene.spheres] is the list argument; the spheres of this variant
    carry no [specular] field and [TraceRay] reads none. *)
Definition TraceRay (sphs : list Sphere) (O D : Vec) (t_min t_max : num)
  : Color :=
  let '(closest_t, closest_sphere) := closest_hit sphs O D t_min t_max in
  match closest_sphere with
  | Some sphere => color sphere
  | None => BACKGROUND_COLOR
  end.

End Unlit.

(** ** Lighting and the lit [TraceRay] *)

(** [Math.pow(base, s)].  The source only calls it on the quotient
    [r_dot_v / (length(R) * length(V))] with [r_dot_v > 0], a positive
    base, where the power is [exp (s * ln base)]. *)
Definition Math_pow (base s : R) : R := Rpower base s.

(** What one non-ambient light of intensity [k] and light vector [L]
    adds to the accumulator [i]: the diffuse and the specular [if]. *)
Definition shade (N V : Vec) (s : R) (i k : R) (L : Vec) : R :=
  let n_dot_l := dot N L in
  let i :=
    if Rlt_dec 0 n_dot_l
    then i + k * (n_dot_l / (length N * length L))
    else i in
  if Req_dec_T s (-1) then i
  else
    let Rv := subtract (multiply N (2 * dot N L)) L in
    let r_dot_v := dot Rv V in
    if Rlt_dec 0 r_dot_v
    then i + k * Math_pow (r_dot_v / (length Rv * length V)) s
    else i.

(** The body of [for (const light of scene.lights)]. *)
Definition light_step (P N V : Vec) (s : R) (i : R) (light : Light) : R :=
  match light with
  | ambient k => i + k
  | point k position => shade N V s i k (subtract position P)
  | directional k direction => shade N V s i k direction
  end.

Definition ComputeLighting (scene : Scene) (P N V : Vec) (s : R) : R :=
  fold_left (light_step P N V s) (lights scene) 0.

(** [ComputeLighting(P, N, V, s)] when [N] is the vector of three
    [NaN]: [dot(N, L)] and [dot(R, V)] are [NaN], the tests
    [n_dot_l > 0] and [r_dot_v > 0] are false for every light, and only
    the ambient lights add their intensity. *)
Definition ComputeLighting_NaN_normal (scene : Scene) : R :=
  fold_left
    (fun i light => match light with ambient k => i + k | _ => i end)
    (lights scene) 0.

(** Background colour (white in the lit program). *)
Definition BACKGROUND_COLOR : Color := {| r := 255; g := 255; b := 255 |}.

Definition TraceRay (scene : Scene) (O D : Vec) (t_min t_max : num) : Color :=
  let '(closest_t, closest_sphere) :=
    closest_hit (spheres scene) O D t_min t_max in
  match closest_sphere with
  | None => BACKGROUND_COLOR
  | Some sphere =>
      let P := add O (multiply D (num_val closest_t)) in
      let N := subtract P (center sphere) in
      let V := multiply D (-1) in
      let lighting :=
        (* [N = divide(N, length(N))]: a zero vector over its zero
           length is the vector of three [NaN] *)
        if Req_dec_T (length N) 0 then ComputeLighting_NaN_normal scene
        else ComputeLighting scene P (divide N (length N)) V
               (specular sphere) in
      {| r := r (color sphere) * lighting;
         g := g (color sphere) * lighting;
         b := b (color sphere) * lighting |}
  end.

(** The scene of the lit program. *)
Definition scene : Scene :=
  {| spheres :=
       [ mkSphere (mkVec 0 (-1) 3) 1 (mkColor 255 0 0) 500;
         mkSphere (mkVec 2 0 4) 1 (mkColor 0 0 255) 500;
         mkSphere (mkVec (-2) 0 4) 1 (mkColor 0 255 0) 10;
         mkSphere (mkVec 0 (-5001) 0) 5000 (mkColor 255 255 0) 1000 ];
     lights :=
       [ ambient (2 / 10);
         point (6 / 10) (mkVec 2 1 0);
         directional (2 / 10) (mkVec 1 4 4) ] |}.

(** ** The pixel buffer and [PutPixel]

    [imgData.data] is a [Uint8ClampedArray]: a fixed-length array of
    bytes.  A write at a key that is not an integer index inside the
    array does nothing; a written number is clamped to [0, 255] and
    rounded to the nearest integer, ties to even. *)

Definition Buffer : Type := list Z.

Definition ToUint8Clamp (v : R) : Z :=
  if Rle_dec v 0 then 0%Z
  else if Rle_dec 255 v then 255%Z
  else
    let f := Int_part v in
    if Rlt_dec (IZR f + 1 / 2) v then (f + 1)%Z
    else if Rlt_dec v (IZR f + 1 / 2) then f
    else if Z.even f then f else (f + 1)%Z.

Fixpoint set_nth (n : nat) (v : Z) (data : Buffer) : Buffer :=
  match data, n with
  | [], _ => []
  | _ :: rest, 0%nat => v :: rest
  | u :: rest, S m => u :: set_nth m v rest
  end.

(** [data[index] = v]. *)
Definition store (index : R) (v : R) (data : Buffer) : Buffer :=
  let n := Int_part index in
  if Req_dec_T (IZR n) index then
    if ((0 <=? n)%Z && (n <? Z.of_nat (List.length data))%Z)%bool
    then set_nth (Z.to_nat n) (ToUint8Clamp v) data
    else data
  else data.

Definition PutPixel (Cw Ch : R) (x y : R) (color : Color) (data : Buffer)
  : Buffer :=
  let px := Cw / 2 + x in
  let py := Ch / 2 - y in
  if num_ltb (Fin px) (Fin 0) || num_geb (Fin px) (Fin Cw)
     || num_ltb (Fin py) (Fin 0) || num_geb (Fin py) (Fin Ch)
  then data
  else
    let index := (px + py * Cw) * 4 in
    let data := store (index + 0) (r color) data in
    let data := store (index + 1) (g color) data in
    let data := store (index + 2) (b color) data in
    store (index + 3) 255 data.

(** ** Specification vocabulary *)

(** [t] is a root of the ray/sphere quadratic as [IntersectRaySphere]
    reports it: one of the two returned numbers, and a real number (the
    pair [(Infinity, Infinity)] reports that there is no intersection,
    and the pair [(NaN, NaN)] of the zero direction passes no
    comparison). *)
Definition is_root (O D : Vec) (sphere : Sphere) (t : R) : Prop :=
  fst (IntersectRaySphere O D sphere) = Fin t \/
  snd (IntersectRaySphere O D sphere) = Fin t.

(** [t_min <= t <= t_max], as the loop tests it. *)
Definition in_range (t_min t_max : num) (t : R) : Prop :=
  num_geb (Fin t) t_min = true /\ num_leb (Fin t) t_max = true.

(** A candidate hit of [sphere]: a root inside the ray bounds. *)
Definition candidate (O D : Vec) (t_min t_max : num) (sphere : Sphere)
  (t : R) : Prop :=
  is_root O D sphere t /\ in_range t_min t_max t.

(** Candidates of the first [n] spheres of [sphs], tagged by position. *)
Definition seen (sphs : list Sphere) (O D : Vec) (t_min t_max : num)
  (n : nat) (j : nat) (t : R) : Prop :=
  (j < n)%nat /\
  exists sphere, nth_error sphs j = Some sphere /\
                 candidate O D t_min t_max sphere t.

(** Loop invariant: the state holds the least of the candidates [C]
    met so far, with the sphere of least position among those that
    attain it; or nothing, when no candidate was met. *)
Definition closest_inv (sphs : list Sphere) (C : nat -> R -> Prop)
  (st : LoopState) : Prop :=
  match st with
  | (Infinity, None) => forall j t, ~ C j t
  | (Fin t, Some sphere) =>
      exists i, C i t /\ nth_error sphs i = Some sphere /\
                forall j t', C j t' -> t <= t' /\ ((j < i)%nat -> t < t')
  | _ => False
  end.

(** ** The lighting sum, in the specification's words *)

(** The reflection of [L] about [N]: [2 * dot(N, L) * N - L]. *)
Definition reflect (N L : Vec) : Vec :=
  {| x := 2 * dot N L * x N - x L;
     y := 2 * dot N L * y N - y L;
     z := 2 * dot N L * z N - z L |}.

(** [intensity * dot(N, L) / (|N| * |L|)], present when [dot(N, L) > 0]. *)
Definition diffuse_term (N : Vec) (k : R) (L : Vec) : R :=
  if Rlt_dec 0 (dot N L) then k * dot N L / (length N * length L) else 0.

(** [intensity * (dot(R, V) / (|R| * |V|)) ^ s], present when [s] is not
    [-1] and [dot(R, V) > 0]. *)
Definition specular_term (N V : Vec) (s k : R) (L : Vec) : R :=
  if Req_dec_T s (-1) then 0
  else if Rlt_dec 0 (dot (reflect N L) V)
       then k * Math_pow (dot (reflect N L) V /
                          (length (reflect N L) * length V)) s
       else 0.

Definition light_term (P N V : Vec) (s : R) (light : Light) : R :=
  match light with
  | ambient k => k
  | point k position =>
      diffuse_term N k (subtract position P) +
      specular_term N V s k (subtract position P)
  | directional k direction =>
      diffuse_term N k direction + specular_term N V s k direction
  end.

Fixpoint lighting_sum (ls : list Light) (P N V : Vec) (s : R) : R :=
  match ls with
  | [] => 0
  | light :: rest => light_term P N V s light + lighting_sum rest P N V s
  end.

(** ** Raster coordinates *)

(** The pixel at raster column [px] and row [py] (row 0 at the top):
    its four bytes start at [(px + py * Cw) * 4]. *)
Definition write_raster (Cw : R) (px py : R) (color : Color) (data : Buffer)
  : Buffer :=
  let index := (px + py * Cw) * 4 in
  store (index + 3) 255
    (store (index + 2) (b color)
       (store (index + 1) (g color)
          (store (index + 0) (r color) data))).

(** [(px, py)] lies in [[0, Cw) x [0, Ch)]. *)
Definition inside_raster (Cw Ch : R) (px py : R) : Prop :=
  0 <= px < Cw /\ 0 <= py < Ch.

(** ** Proof automation *)

(** Decides the real comparisons left in a goal over concrete numbers. *)
Ltac decide_reals :=
  repeat match goal with
    | |- context [Rlt_dec ?u ?v] => destruct (Rlt_dec u v); try lra
    | |- context [Rle_dec ?u ?v] => destruct (Rle_dec u v); try lra
    | |- context [Req_dec_T ?u ?v] => destruct (Req_dec_T u v); try lra
    end.

(** Evaluates the guarded updates of the loop on concrete roots. *)
Ltac eval_try_root :=
  unfold try_root, num_geb, num_leb, num_ltb;
  repeat (simpl; decide_reals).

(** ** The render loop

    [for (let v = start; v < bound; v++) body(v)] over a state: the
    counter is a number, incremented by one while it stays below the
    bound.  [fuel] bounds the number of tests of the loop condition;
    [None] is "more iterations were needed". *)
Fixpoint for_loop {St : Type} (fuel : nat) (v bound : R)
  (body : R -> St -> option St) (st : St) : option St :=
  match fuel with
  | 0%nat => None
  | S fuel' =>
      if Rlt_dec v bound then
        match body v st with
        | Some st' => for_loop fuel' (v + 1) bound body st'
        | None => None
        end
      else Some st
  end.

(** [render] with the call [TraceRay(O, D, 1, Infinity)] abstracted as
    [trace D]: the two programs share the loop and differ in their
    [TraceRay].  The state is the pixel buffer [imgData.data], which
    the final [ctx.putImageData] hands to the canvas. *)
Definition render_with (trace : Vec -> Color) (fuel : nat) (Cw Ch : R)
  (data : Buffer) : option Buffer :=
  for_loop fuel (- Cw / 2) (Cw / 2)
    (fun x data =>
       for_loop fuel (- Ch / 2) (Ch / 2)
         (fun y data =>
            let D := CanvasToViewport Cw Ch x y in
            let color := trace D in
            Some (PutPixel Cw Ch x y color data))
         data)
    data.

Definition render (scene : Scene) (fuel : nat) (Cw Ch : R) (data : Buffer)
  : option Buffer :=
  render_with (fun D => TraceRay scene O D (Fin 1) Infinity) fuel Cw Ch data.

(** [render] of the unlit variant. *)
Definition render_unlit (sphs : list Sphere) (fuel : nat) (Cw Ch : R)
  (data : Buffer) : option Buffer :=
  render_with (fun D => Unlit.TraceRay sphs O D (Fin 1) Infinity)
    fuel Cw Ch data.

(** ** More specification vocabulary *)

(** The sum of the intensities of a list of lights. *)
Fixpoint total_intensity (ls : list Light) : R :=
  match ls with
  | [] => 0
  | light :: rest => intensity light + total_intensity rest
  end.

(** The four bytes of the pixel at column [px] of row [py] in a buffer
    of a canvas of width [W]. *)
Definition pixel_bytes (W : Z) (data : Buffer) (px py : Z)
  : list (option Z) :=
  let base := Z.to_nat (4 * (px + py * W)) in
  [ nth_error data base; nth_error data (base + 1);
    nth_error data (base + 2); nth_error data (base + 3) ].

(** The bytes a colour is stored as: clamped channels, opaque alpha. *)
Definition color_bytes (c : Color) : list (option Z) :=
  [ Some (ToUint8Clamp (r c)); Some (ToUint8Clamp (g c));
    Some (ToUint8Clamp (b c)); Some 255%Z ].

(** The ray direction [render] computes for the raster pixel
    [(px, py)] of a [W] x [H] canvas: the centred coordinate is
    [(px - W / 2, H / 2 - py)]. *)
Definition pixel_direction (W H : Z) (px py : Z) : Vec :=
  CanvasToViewport (IZR W) (IZR H)
    (- IZR W / 2 + IZR px) (- IZR H / 2 + (IZR H - IZR py)).

(** Buffer [out] is [data] with the pixels in [T] painted with the
    colours [F] assigns them, on a [W] x [H] canvas. *)
Definition painted (W H : Z) (F : Z -> Z -> Color) (T : Z -> Z -> Prop)
  (data out : Buffer) : Prop :=
  List.length out = List.length data /\
  forall px py,
    (0 <= px < W)%Z -> (0 <= py < H)%Z ->
    (T px py -> pixel_bytes W out px py = color_bytes (F px py)) /\
    (~ T px py -> pixel_bytes W out px py = pixel_bytes W data px py).

(** The light with its intensity multiplied by [c]. *)
Definition scale_intensity (c : R) (light : Light) : Light :=
  match light with
  | ambient k => ambient (c * k)
  | point k position => point (c * k) position
  | directional k direction => directional (c * k) direction
  end.

(** The sum of the intensities of the ambient lights of a list. *)
Fixpoint ambient_total (ls : list Light) : R :=
  match ls with
  | [] => 0
  | ambient k :: rest => k + ambient_total rest
  | _ :: rest => ambient_total rest
  end.

(** ** Order on numbers *)

Lemma num_ltb_fin (u v : R) : num_ltb (Fin u) (Fin v) = true <-> u < v.
Proof.
  unfold num_ltb. destruct (Rlt_dec u v); split; intros; auto; discriminate.
Qed.

Lemma num_leb_fin (u v : R) : num_leb (Fin u) (Fin v) = true <-> u <= v.
Proof.
  unfold num_leb. destruct (Rle_dec u v); split; intros; auto; discriminate.
Qed.

Lemma num_ltb_fin_false (u v : R) : num_ltb (Fin u) (Fin v) = false <-> v <= u.
Proof.
  unfold num_ltb. destruct (Rlt_dec u v); split; intros; try lra; auto;
    discriminate.
Qed.

(** ** Evaluating the intersection *)

Lemma num_div_nonzero (n d : R) : d <> 0 -> num_div n d = Fin (n / d).
Proof.
  intros Hd. unfold num_div. destruct (Req_dec_T d 0); [contradiction|].
  reflexivity.
Qed.

Lemma num_div_zero : num_div 0 0 = NaN.
Proof.
  unfold num_div. destruct (Req_dec_T 0 0) as [_ | H]; [|contradiction].
  destruct (Rlt_dec 0 0); [lra|]. reflexivity.
Qed.

(** A direction with [dot(D, D) = 0] is the zero vector. *)
Lemma dot_self_zero (D : Vec) : dot D D = 0 -> x D = 0 /\ y D = 0 /\ z D = 0.
Proof.
  unfold dot. intros H.
  pose proof (Rle_0_sqr (x D)) as Hx. pose proof (Rle_0_sqr (y D)) as Hy.
  pose proof (Rle_0_sqr (z D)) as Hz. unfold Rsqr in *.
  repeat split; nra.
Qed.

Lemma IntersectRaySphere_miss O D sphere :
  (2 * dot (subtract O (center sphere)) D) *
  (2 * dot (subtract O (center sphere)) D) -
  4 * dot D D *
  (dot (subtract O (center sphere)) (subtract O (center sphere)) -
   radius sphere * radius sphere) < 0 ->
  IntersectRaySphere O D sphere = (Infinity, Infinity).
Proof.
  intros H. unfold IntersectRaySphere.
  destruct (Rlt_dec _ 0) as [_ | Hn]; [reflexivity | contradiction].
Qed.

(** When the direction is not zero and the discriminant is the square
    of [q >= 0] the roots are [(-b + q) / (2a)] and [(-b - q) / (2a)]. *)
Lemma IntersectRaySphere_hit O D sphere q :
  dot D D <> 0 ->
  0 <= q ->
  (2 * dot (subtract O (center sphere)) D) *
  (2 * dot (subtract O (center sphere)) D) -
  4 * dot D D *
  (dot (subtract O (center sphere)) (subtract O (center sphere)) -
   radius sphere * radius sphere) = q * q ->
  IntersectRaySphere O D sphere =
  (Fin ((- (2 * dot (subtract O (center sphere)) D) + q) / (2 * dot D D)),
   Fin ((- (2 * dot (subtract O (center sphere)) D) - q) / (2 * dot D D))).
Proof.
  intros Ha Hq H. unfold IntersectRaySphere.
  destruct (Rlt_dec _ 0) as [Hlt | _].
  - rewrite H in Hlt. nra.
  - rewrite H, sqrt_square by assumption.
    rewrite !num_div_nonzero by lra. reflexivity.
Qed.

(** The zero direction: both roots are [0 / 0]. *)
Lemma IntersectRaySphere_zero_direction O D sphere :
  dot D D = 0 -> IntersectRaySphere O D sphere = (NaN, NaN).
Proof.
  intros Ha. destruct (dot_self_zero D Ha) as (Hx & Hy & Hz).
  assert (Hb : dot (subtract O (center sphere)) D = 0)
    by (unfold dot; rewrite Hx, Hy, Hz; ring).
  unfold IntersectRaySphere. rewrite Ha, Hb.
  replace (2 * 0 * (2 * 0) - 4 * 0 * _) with 0 by ring.
  destruct (Rlt_dec 0 0); [lra|].
  rewrite sqrt_0.
  replace (- (2 * 0) + 0) with 0 by ring.
  replace (- (2 * 0) - 0) with 0 by ring.
  replace (2 * 0) with 0 by ring.
  now rewrite num_div_zero.
Qed.

Lemma IntersectRaySphere_not_NegInfinity O D sphere :
  fst (IntersectRaySphere O D sphere) <> NegInfinity /\
  snd (IntersectRaySphere O D sphere) <> NegInfinity.
Proof.
  destruct (Req_dec_T (dot D D) 0) as [Ha | Ha].
  - rewrite IntersectRaySphere_zero_direction by assumption.
    split; discriminate.
  - unfold IntersectRaySphere. destruct (Rlt_dec _ 0).
    + split; discriminate.
    + rewrite !num_div_nonzero by lra. split; discriminate.
Qed.

(** ** The closest-hit loop keeps its invariant *)

Lemma closest_inv_ext sphs (C C' : nat -> R -> Prop) st :
  (forall j t, C j t <-> C' j t) ->
  closest_inv sphs C st -> closest_inv sphs C' st.
Proof.
  intros HC. destruct st as [[t| | |] [sphere|]]; simpl; auto.
  - intros (i & Hi & Hn & Hmin). exists i. split; [now apply HC|].
    split; [assumption|]. intros j t' Hj. apply Hmin. now apply HC.
  - intros H j t Hj. apply (H j t). now apply HC.
Qed.

Lemma try_root_cases t_min t_max sphere (t : num) (st : LoopState) :
  t <> NegInfinity ->
  (exists v, t = Fin v /\ in_range t_min t_max v /\
             num_ltb t (fst st) = true /\
             try_root t_min t_max sphere t st = (t, Some sphere)) \/
  (try_root t_min t_max sphere t st = st /\
   forall v, t = Fin v -> in_range t_min t_max v ->
             num_ltb t (fst st) = false).
Proof.
  intros Hneg. unfold try_root, in_range.
  destruct (num_geb t t_min) eqn:E1; cbn [andb];
    [destruct (num_leb t t_max) eqn:E2; cbn [andb];
     [destruct (num_ltb t (fst st)) eqn:E3|]|].
  - left. destruct t as [v| | |]; try contradiction.
    + exists v. auto.
    + destruct (fst st); simpl in E3; discriminate.
    + destruct (fst st); simpl in E3; discriminate.
  - right. auto.
  - right. split; auto. intros v -> [_ H]. congruence.
  - right. split; auto. intros v -> [H _]. congruence.
Qed.

Lemma try_root_inv sphs t_min t_max (C : nat -> R -> Prop) n sphere t st :
  t <> NegInfinity ->
  nth_error sphs n = Some sphere ->
  (forall j u, C j u -> (j <= n)%nat) ->
  closest_inv sphs C st ->
  closest_inv sphs
    (fun j u => C j u \/ (j = n /\ t = Fin u /\ in_range t_min t_max u))
    (try_root t_min t_max sphere t st).
Proof.
  intros Hneg Hn Hle Hinv.
  destruct (try_root_cases t_min t_max sphere t st Hneg)
    as [(v & -> & Hr & Hlt & ->) | [-> Hge]].
  - (* the root replaces the current closest *)
    simpl. exists n. split; [right; auto|]. split; [assumption|].
    intros j t' [HC | (-> & [= <-] & _)]; [|split; [lra | lia]].
    destruct st as [[t0| | |] [s0|]]; simpl in Hinv, Hlt; try contradiction.
    + destruct Hinv as (i & _ & _ & Hmin).
      apply num_ltb_fin in Hlt. destruct (Hmin j t' HC). split; lra.
    + exfalso. exact (Hinv j t' HC).
  - (* the state is kept *)
    destruct st as [[t0| | |] [s0|]]; simpl in *; try contradiction.
    + destruct Hinv as (i & Hi & Hs & Hmin). exists i.
      split; [left; assumption|]. split; [assumption|].
      intros j t' [HC | (-> & -> & Hr)]; [now apply Hmin|].
      specialize (Hge t' eq_refl Hr). apply num_ltb_fin_false in Hge.
      split; [assumption|]. intros Hlt. specialize (Hle i t0 Hi). lia.
    + intros j u [HC | (-> & -> & Hr)]; [exact (Hinv j u HC)|].
      specialize (Hge u eq_refl Hr). discriminate.
Qed.

Lemma closest_step_inv sphs O D t_min t_max n sphere st :
  nth_error sphs n = Some sphere ->
  closest_inv sphs (seen sphs O D t_min t_max n) st ->
  closest_inv sphs (seen sphs O D t_min t_max (S n))
    (closest_step O D t_min t_max st sphere).
Proof.
  intros Hn Hinv. unfold closest_step.
  destruct (IntersectRaySphere_not_NegInfinity O D sphere) as [Hn1 Hn2].
  destruct (IntersectRaySphere O D sphere) as [t1 t2] eqn:E.
  simpl in Hn1, Hn2.
  assert (H1 := try_root_inv sphs t_min t_max
                  (seen sphs O D t_min t_max n) n sphere t1 st Hn1 Hn).
  specialize (H1 ltac:(intros j u [Hj _]; lia) Hinv).
  apply (try_root_inv sphs t_min t_max _ n sphere t2 _ Hn2 Hn) in H1;
    [|intros j u [[Hj _] | [-> _]]; lia].
  revert H1. apply closest_inv_ext. intros j u. unfold seen, candidate, is_root.
  split.
  - intros [[[Hj (s & Hs & Hc)] | (-> & -> & Hr)] | (-> & -> & Hr)].
    + split; [lia | eauto].
    + split; [lia|]. exists sphere. rewrite E. simpl. auto.
    + split; [lia|]. exists sphere. rewrite E. simpl. auto.
  - intros [Hj (s & Hs & [Hroot Hr])].
    destruct (Nat.eq_dec j n) as [-> | Hne].
    + rewrite Hn in Hs. injection Hs as <-. rewrite E in Hroot. simpl in Hroot.
      destruct Hroot as [-> | ->]; [left; right | right]; auto.
    + left. left. split; [lia|]. exists s. split; [assumption|].
      split; assumption.
Qed.

Lemma closest_fold_inv O D t_min t_max rest : forall pre st,
  closest_inv (pre ++ rest)
    (seen (pre ++ rest) O D t_min t_max (List.length pre)) st ->
  closest_inv (pre ++ rest)
    (seen (pre ++ rest) O D t_min t_max (List.length (pre ++ rest)))
    (fold_left (closest_step O D t_min t_max) rest st).
Proof.
  induction rest as [|sphere rest IH]; intros pre st Hinv.
  - simpl. now rewrite app_nil_r in *.
  - simpl fold_left.
    assert (Happ : pre ++ sphere :: rest = (pre ++ [sphere]) ++ rest)
      by (now rewrite <- app_assoc).
    rewrite Happ. apply IH. rewrite <- Happ.
    rewrite length_app. simpl List.length. rewrite Nat.add_1_r.
    apply closest_step_inv; [|assumption].
    rewrite nth_error_app2 by lia. now rewrite Nat.sub_diag.
Qed.

Lemma closest_hit_inv sphs O D t_min t_max :
  closest_inv sphs (seen sphs O D t_min t_max (List.length sphs))
    (closest_hit sphs O D t_min t_max).
Proof.
  unfold closest_hit.
  apply (closest_fold_inv O D t_min t_max sphs [] (Infinity, None)).
  simpl. intros j t [Hj _]. lia.
Qed.

Lemma seen_all sphs O D t_min t_max j t :
  seen sphs O D t_min t_max (List.length sphs) j t <->
  exists sphere, nth_error sphs j = Some sphere /\
                 candidate O D t_min t_max sphere t.
Proof.
  unfold seen. split; [tauto|]. intros (s & Hs & Hc). split; [|eauto].
  apply nth_error_Some. congruence.
Qed.

(** A selected sphere comes with a finite [closest_t]. *)
Lemma closest_hit_some_finite sphs O D t_min t_max sphere :
  snd (closest_hit sphs O D t_min t_max) = Some sphere ->
  exists t, closest_hit sphs O D t_min t_max = (Fin t, Some sphere).
Proof.
  pose proof (closest_hit_inv sphs O D t_min t_max) as H.
  destruct (closest_hit sphs O D t_min t_max) as [[t| | |] [s|]];
    simpl in *; try contradiction; try discriminate.
  intros [= ->]. eauto.
Qed.

(** ** Claims about [TraceRay]'s hit selection *)

(** C1.  [TraceRay] selects the hit with the smallest root [t] with
    [t_min <= t <= t_max], over both roots of every sphere of the list:
    either no sphere has such a root and nothing is selected, or the
    loop ends with [(closest_t, closest_sphere) = (t, sphere)] where [t]
    is a root of [sphere] inside the bounds, no root of any sphere
    inside the bounds is smaller, and every such root of a sphere placed
    earlier in the list is strictly larger: among spheres that attain
    the smallest root the first in list order is the one selected (the
    comparison with [closest_t] is strict).  A root is a real number:
    the pair [(Infinity, Infinity)] of a missed sphere and the pair
    [(NaN, NaN)] of the zero direction are none.  The
    unlit [TraceRay] returns the selected sphere's colour, the lit one
    that colour scaled by the lighting. *)
Theorem TraceRay_selects_closest_hit :
  forall (sphs : list Sphere) (O D : Vec) (t_min t_max : num),
    (closest_hit sphs O D t_min t_max = (Infinity, None) /\
     forall j sphere t,
       nth_error sphs j = Some sphere ->
       ~ candidate O D t_min t_max sphere t)
    \/
    (exists i sphere t,
        closest_hit sphs O D t_min t_max = (Fin t, Some sphere) /\
        nth_error sphs i = Some sphere /\
        candidate O D t_min t_max sphere t /\
        (forall j sphere' t',
            nth_error sphs j = Some sphere' ->
            candidate O D t_min t_max sphere' t' ->
            t <= t' /\ ((j < i)%nat -> t < t')) /\
        Unlit.TraceRay sphs O D t_min t_max = color sphere /\
        (forall ls, exists lighting,
            TraceRay {| spheres := sphs; lights := ls |} O D t_min t_max
            = {| r := r (color sphere) * lighting;
                 g := g (color sphere) * lighting;
                 b := b (color sphere) * lighting |})).
Proof.
  intros sphs O D t_min t_max.
  pose proof (closest_hit_inv sphs O D t_min t_max) as Hinv.
  unfold Unlit.TraceRay, TraceRay. cbn [spheres].
  destruct (closest_hit sphs O D t_min t_max) as [[t| | |] [sphere|]];
    simpl in Hinv; try contradiction.
  - right. destruct Hinv as (i & Hi & Hn & Hmin).
    apply seen_all in Hi. destruct Hi as (s & Hs & Hc).
    assert (s = sphere) as -> by congruence.
    exists i, sphere, t.
    split; [reflexivity|]. split; [assumption|]. split; [assumption|].
    split; [|split; [reflexivity | intros ls; eexists; reflexivity]].
    intros j sphere' t' Hj Hc'. apply (Hmin j t'). apply seen_all. eauto.
  - left. split; [reflexivity|]. intros j sphere t Hj Hc.
    apply (Hinv j t). apply seen_all. eauto.
Qed.

(** C5.  When no sphere of the scene has a root inside the ray bounds,
    [TraceRay] returns the background constant itself: white
    [(255, 255, 255)] in the lit program, black [(0, 0, 0)] in the unlit
    one, whatever the scene, its lights and the ray. *)
Theorem TraceRay_background :
  forall (scene : Scene) (O D : Vec) (t_min t_max : num),
    (forall sphere t,
        In sphere (spheres scene) -> ~ candidate O D t_min t_max sphere t) ->
    TraceRay scene O D t_min t_max = BACKGROUND_COLOR /\
    BACKGROUND_COLOR = {| r := 255; g := 255; b := 255 |} /\
    Unlit.TraceRay (spheres scene) O D t_min t_max = Unlit.BACKGROUND_COLOR /\
    Unlit.BACKGROUND_COLOR = {| r := 0; g := 0; b := 0 |}.
Proof.
  intros scene O D t_min t_max Hnone.
  pose proof (closest_hit_inv (spheres scene) O D t_min t_max) as Hinv.
  unfold TraceRay, Unlit.TraceRay.
  destruct (closest_hit (spheres scene) O D t_min t_max) as [[t| | |] [sphere|]];
    simpl in Hinv; try contradiction.
  - exfalso. destruct Hinv as (i & Hi & _).
    apply seen_all in Hi. destruct Hi as (s & Hs & Hc).
    apply (Hnone s t); [|assumption]. eapply nth_error_In; eassumption.
  - repeat split.
Qed.

(** The ray from the camera along [-z] meets no sphere of the scene in
    front of the viewport: the red sphere is touched behind the camera,
    at [t = -3], the others are missed. *)
Lemma TraceRay_background_witness :
  TraceRay scene O (mkVec 0 0 (-1)) (Fin 1) Infinity = BACKGROUND_COLOR /\
  BACKGROUND_COLOR = {| r := 255; g := 255; b := 255 |} /\
  Unlit.TraceRay (spheres scene) O (mkVec 0 0 (-1)) (Fin 1) Infinity
  = Unlit.BACKGROUND_COLOR /\
  Unlit.BACKGROUND_COLOR = {| r := 0; g := 0; b := 0 |}.
Proof.
  apply TraceRay_background.
  intros sphere t Hin [Hroot [Hmin _]].
  unfold is_root in Hroot. simpl in Hin.
  destruct Hin as [<- | [<- | [<- | [<- | []]]]].
  - rewrite (IntersectRaySphere_hit _ _ _ 0) in Hroot
      by (unfold dot; simpl; lra).
    unfold num_geb in Hmin. unfold dot in Hroot. simpl in Hroot.
    destruct Hroot as [[= <-] | [= <-]]; apply num_leb_fin in Hmin; lra.
  - rewrite IntersectRaySphere_miss in Hroot by (unfold dot; simpl; lra).
    destruct Hroot; discriminate.
  - rewrite IntersectRaySphere_miss in Hroot by (unfold dot; simpl; lra).
    destruct Hroot; discriminate.
  - rewrite IntersectRaySphere_miss in Hroot by (unfold dot; simpl; lra).
    destruct Hroot; discriminate.
Defined.

(** ** Claims about [IntersectRaySphere] *)

(** C2.  With [CO = O - center], [a = dot(D, D)], [b = 2 * dot(CO, D)],
    [c = dot(CO, CO) - radius^2] and discriminant [b^2 - 4ac], all
    written out on the coordinates, [IntersectRaySphere] returns
    [(Infinity, Infinity)] exactly when the discriminant is negative,
    and otherwise the pair of [(-b + sqrt discriminant) / (2a)] (first,
    [t1]) and [(-b - sqrt discriminant) / (2a)] (second, [t2]): two
    real numbers when [a] is not 0, and for the zero direction
    ([a = 0], where [b = 0] and the discriminant is 0) the pair
    [(NaN, NaN)] of the two quotients [0 / 0]. *)
Theorem IntersectRaySphere_quadratic :
  forall (O D : Vec) (sphere : Sphere),
    let COx := x O - x (center sphere) in
    let COy := y O - y (center sphere) in
    let COz := z O - z (center sphere) in
    let a := x D * x D + y D * y D + z D * z D in
    let b := 2 * (COx * x D + COy * y D + COz * z D) in
    let c := COx * COx + COy * COy + COz * COz - (radius sphere) ^ 2 in
    let discriminant := b ^ 2 - 4 * a * c in
    (IntersectRaySphere O D sphere = (Infinity, Infinity) <->
     discriminant < 0) /\
    (~ discriminant < 0 -> a <> 0 ->
     IntersectRaySphere O D sphere =
     (Fin ((- b + sqrt discriminant) / (2 * a)),
      Fin ((- b - sqrt discriminant) / (2 * a)))) /\
    (~ discriminant < 0 -> a = 0 ->
     b = 0 /\ discriminant = 0 /\
     IntersectRaySphere O D sphere = (NaN, NaN)).
Proof.
  intros O D sphere COx COy COz a b c discriminant.
  assert (Ha : dot D D = a) by reflexivity.
  assert (Hb : 2 * dot (subtract O (center sphere)) D = b) by reflexivity.
  assert (Hd : 2 * dot (subtract O (center sphere)) D
               * (2 * dot (subtract O (center sphere)) D)
               - 4 * dot D D
                 * (dot (subtract O (center sphere))
                        (subtract O (center sphere))
                    - radius sphere * radius sphere)
               = discriminant)
    by (unfold discriminant, b, a, c, COx, COy, COz, dot, subtract;
        simpl; ring).
  assert (Hhit : ~ discriminant < 0 -> a <> 0 ->
                 IntersectRaySphere O D sphere =
                 (Fin ((- b + sqrt discriminant) / (2 * a)),
                  Fin ((- b - sqrt discriminant) / (2 * a)))).
  { intros Hge Hne. unfold IntersectRaySphere. rewrite Hd, Hb, Ha.
    destruct (Rlt_dec discriminant 0); [contradiction|].
    rewrite !num_div_nonzero by lra. reflexivity. }
  assert (Hzero : a = 0 ->
                  b = 0 /\ discriminant = 0 /\
                  IntersectRaySphere O D sphere = (NaN, NaN)).
  { intros Hz. rewrite <- Ha in Hz.
    destruct (dot_self_zero D Hz) as (Hx & Hy & Hz').
    assert (b = 0) by (unfold b; rewrite Hx, Hy, Hz'; ring).
    split; [assumption|]. split.
    - unfold discriminant. rewrite <- Ha, Hz. nra.
    - now apply IntersectRaySphere_zero_direction. }
  split; [|split; [exact Hhit | intros _; exact Hzero]].
  split.
  - intros Hres. destruct (Rlt_dec discriminant 0) as [Hlt | Hge];
      [assumption|]. exfalso.
    destruct (Req_dec_T a 0) as [Hz | Hnz].
    + destruct (Hzero Hz) as (_ & _ & Hnan). congruence.
    + rewrite (Hhit Hge Hnz) in Hres. discriminate.
  - intros Hlt. apply IntersectRaySphere_miss. rewrite Hd. exact Hlt.
Qed.

(** ** Claims about [ComputeLighting] *)

Lemma reflect_eq N L : subtract (multiply N (2 * dot N L)) L = reflect N L.
Proof. unfold subtract, multiply, reflect. simpl. f_equal; ring. Qed.

Lemma shade_terms N V s i k L :
  shade N V s i k L = i + (diffuse_term N k L + specular_term N V s k L).
Proof.
  unfold shade, diffuse_term, specular_term. rewrite reflect_eq.
  destruct (Rlt_dec 0 (dot N L)); destruct (Req_dec_T s (-1));
    try destruct (Rlt_dec 0 (dot (reflect N L) V));
    unfold Rdiv; ring.
Qed.

Lemma light_step_term P N V s i light :
  light_step P N V s i light = i + light_term P N V s light.
Proof. destruct light; simpl; auto using shade_terms. Qed.

Lemma lighting_fold P N V s : forall ls i,
  fold_left (light_step P N V s) ls i = i + lighting_sum ls P N V s.
Proof.
  induction ls as [|light rest IH]; intros i; simpl.
  - ring.
  - rewrite IH, light_step_term. ring.
Qed.

(** C3.  [ComputeLighting] is the sum over the lights of the scene of:
    the intensity, for an ambient light; and otherwise, with [L] the
    light's position minus [P] (point) or its stored direction
    (directional), the diffuse term
    [intensity * dot(N, L) / (|N| * |L|)] counted exactly when
    [dot(N, L) > 0], plus, unless [s = -1], the specular term
    [intensity * (dot(R, V) / (|R| * |V|)) ^ s] with
    [R = 2 * dot(N, L) * N - L], counted exactly when [dot(R, V) > 0]. *)
Theorem ComputeLighting_sum :
  forall (scene : Scene) (P N V : Vec) (s : R),
    ComputeLighting scene P N V s = lighting_sum (lights scene) P N V s.
Proof.
  intros. unfold ComputeLighting. rewrite lighting_fold. ring.
Qed.

(** C6.  With one ambient light of intensity [k] and no other light,
    [ComputeLighting] returns [k], for any [P], [N], [V], any specular
    exponent and any spheres. *)
Theorem ComputeLighting_ambient_only :
  forall (sphs : list Sphere) (k : R) (P N V : Vec) (s : R),
    ComputeLighting {| spheres := sphs; lights := [ambient k] |} P N V s = k.
Proof.
  intros. unfold ComputeLighting. simpl. ring.
Qed.

(** A vector with a non-zero dot product is not the zero vector. *)
Lemma length_pos (u w : Vec) : dot u w <> 0 -> 0 < length u.
Proof.
  intros Hne. unfold length. apply sqrt_lt_R0.
  destruct (Rle_lt_dec (x u * x u + y u * y u + z u * z u) 0) as [Hz | Hp];
    [|assumption].
  exfalso. apply Hne. unfold dot.
  assert (x u = 0) by nra. assert (y u = 0) by nra. assert (z u = 0) by nra.
  nra.
Qed.

(** Where the source divides a positive dot product by the product of
    the two lengths, the divisor is positive and so is the quotient:
    the cosine of the diffuse term and the base handed to [Math.pow]. *)
Lemma cosine_positive (u w : Vec) :
  0 < dot u w -> 0 < dot u w / (length u * length w).
Proof.
  intros H. apply Rdiv_lt_0_compat; [assumption|].
  apply Rmult_lt_0_compat.
  - apply (length_pos u w). lra.
  - apply (length_pos w u). unfold dot in *. lra.
Qed.

Lemma diffuse_term_nonneg N k L : 0 <= k -> 0 <= diffuse_term N k L.
Proof.
  intros Hk. unfold diffuse_term. destruct (Rlt_dec 0 (dot N L)); [|lra].
  replace (k * dot N L / (length N * length L))
    with (k * (dot N L / (length N * length L))) by (unfold Rdiv; ring).
  apply Rmult_le_pos; [assumption|].
  now apply Rlt_le, cosine_positive.
Qed.

Lemma specular_term_nonneg N V s k L : 0 <= k -> 0 <= specular_term N V s k L.
Proof.
  intros Hk. unfold specular_term, Math_pow.
  destruct (Req_dec_T s (-1)); [lra|].
  destruct (Rlt_dec 0 (dot (reflect N L) V)); [|lra].
  apply Rmult_le_pos; [assumption|]. unfold Rpower. apply Rlt_le, exp_pos.
Qed.

Lemma light_term_nonneg P N V s light :
  0 <= intensity light -> 0 <= light_term P N V s light.
Proof.
  destruct light; simpl; intros Hk; [assumption| |];
    apply Rplus_le_le_0_compat;
    auto using diffuse_term_nonneg, specular_term_nonneg.
Qed.

(** C10.  When every light of the scene has a non-negative intensity,
    [ComputeLighting] returns a non-negative number, for any [P], [N],
    [V] and specular exponent: the accumulator starts at 0 and no
    iteration of the loop over the lights lowers it. *)
Theorem ComputeLighting_nonneg :
  forall (scene : Scene) (P N V : Vec) (s : R),
    Forall (fun light => 0 <= intensity light) (lights scene) ->
    0 <= ComputeLighting scene P N V s /\
    (forall i light,
        In light (lights scene) -> i <= light_step P N V s i light).
Proof.
  intros scene P N V s Hall. split.
  - unfold ComputeLighting. rewrite lighting_fold, Rplus_0_l.
    induction Hall as [|light rest Hk _ IH]; simpl.
    + lra.
    + apply Rplus_le_le_0_compat; [|assumption].
      now apply light_term_nonneg.
  - intros i light Hin. rewrite light_step_term.
    rewrite Forall_forall in Hall.
    pose proof (light_term_nonneg P N V s light (Hall light Hin)). lra.
Qed.

(** The three lights of the scene have intensities 0.2, 0.6 and 0.2. *)
Lemma ComputeLighting_nonneg_witness :
  0 <= ComputeLighting scene (mkVec 0 0 3) (mkVec 0 1 0) (mkVec 0 0 (-1)) 500
  /\ (forall i light,
         In light (lights scene) ->
         i <= light_step (mkVec 0 0 3) (mkVec 0 1 0) (mkVec 0 0 (-1)) 500
                i light).
Proof.
  apply ComputeLighting_nonneg. simpl.
  repeat constructor; simpl; lra.
Defined.

(** ** Claims about the shaded colour *)

Lemma TraceRay_hit scene O D t_min t_max t sphere :
  closest_hit (spheres scene) O D t_min t_max = (Fin t, Some sphere) ->
  TraceRay scene O D t_min t_max =
  let P := add O (multiply D t) in
  let N := subtract P (center sphere) in
  let lighting :=
    if Req_dec_T (length N) 0 then ComputeLighting_NaN_normal scene
    else ComputeLighting scene P (divide N (length N)) (multiply D (-1))
           (specular sphere) in
  {| r := r (color sphere) * lighting;
     g := g (color sphere) * lighting;
     b := b (color sphere) * lighting |}.
Proof. intros H. unfold TraceRay. rewrite H. reflexivity. Qed.

Lemma ComputeLighting_NaN_normal_sum scene :
  ComputeLighting_NaN_normal scene = ambient_total (lights scene).
Proof.
  unfold ComputeLighting_NaN_normal.
  assert (H : forall ls i,
             fold_left (fun i light =>
                          match light with ambient k => i + k | _ => i end)
               ls i = i + ambient_total ls).
  { induction ls as [|light rest IH]; intros i; simpl; [ring|].
    rewrite IH. destruct light; ring. }
  rewrite H. ring.
Qed.

(** C4.  For a ray whose closest hit is [(closest_t, closest_sphere)],
    [TraceRay] returns the sphere's colour with every channel multiplied
    by [ComputeLighting(P, N, V, closest_sphere.specular)], where
    [P = O + closest_t * D], [N = (P - center) / |P - center|] and
    [V = -D], not normalized, all written out on the coordinates; the
    products are returned as they are, with no clamping.  When
    [|P - center|] is 0 (a sphere of radius 0) the three coordinates of
    [N] are [0 / 0 = NaN], no diffuse or specular test passes, and the
    factor [ComputeLighting] returns is the sum of the ambient
    intensities. *)
Theorem TraceRay_shaded_color :
  forall (scene : Scene) (O D : Vec) (t_min t_max : num)
         (closest_t : R) (closest_sphere : Sphere),
    closest_hit (spheres scene) O D t_min t_max
    = (Fin closest_t, Some closest_sphere) ->
    let P := {| x := x O + closest_t * x D;
                y := y O + closest_t * y D;
                z := z O + closest_t * z D |} in
    let PCx := x P - x (center closest_sphere) in
    let PCy := y P - y (center closest_sphere) in
    let PCz := z P - z (center closest_sphere) in
    let norm := sqrt (PCx * PCx + PCy * PCy + PCz * PCz) in
    let N := {| x := PCx / norm; y := PCy / norm; z := PCz / norm |} in
    let V := {| x := - x D; y := - y D; z := - z D |} in
    (norm <> 0 ->
     let i := ComputeLighting scene P N V (specular closest_sphere) in
     TraceRay scene O D t_min t_max =
     {| r := r (color closest_sphere) * i;
        g := g (color closest_sphere) * i;
        b := b (color closest_sphere) * i |}) /\
    (norm = 0 ->
     let i := ambient_total (lights scene) in
     TraceRay scene O D t_min t_max =
     {| r := r (color closest_sphere) * i;
        g := g (color closest_sphere) * i;
        b := b (color closest_sphere) * i |}).
Proof.
  intros scene O D t_min t_max closest_t closest_sphere H P PCx PCy PCz
         norm N V.
  rewrite (TraceRay_hit _ _ _ _ _ _ _ H). cbv zeta.
  assert (HP : add O (multiply D closest_t) = P)
    by (unfold add, multiply, P; simpl; f_equal; ring).
  assert (HV : multiply D (-1) = V)
    by (unfold multiply, V; f_equal; ring).
  rewrite HP, HV.
  assert (Hn : length (subtract P (center closest_sphere)) = norm)
    by reflexivity.
  rewrite Hn.
  assert (HN : divide (subtract P (center closest_sphere)) norm = N)
    by reflexivity.
  rewrite HN.
  split; intros Hnorm; destruct (Req_dec_T norm 0); try contradiction.
  - reflexivity.
  - now rewrite ComputeLighting_NaN_normal_sum.
Qed.

(** The ray through the centre of the canvas touches the red sphere of
    the scene at [t = 3] and misses the three others. *)
Lemma closest_hit_scene_center :
  closest_hit (spheres scene) O (mkVec 0 0 1) (Fin 1) Infinity =
  (Fin 3, Some (mkSphere (mkVec 0 (-1) 3) 1 (mkColor 255 0 0) 500)).
Proof.
  unfold closest_hit, scene, spheres, fold_left, closest_step.
  rewrite (IntersectRaySphere_hit O (mkVec 0 0 1)
             (mkSphere (mkVec 0 (-1) 3) 1 (mkColor 255 0 0) 500) 0)
    by (unfold dot, O; simpl; lra).
  rewrite !IntersectRaySphere_miss by (unfold dot, O; simpl; lra).
  unfold dot, O. simpl.
  replace ((- (2 * ((0 - 0) * 0 + (0 - -1) * 0 + (0 - 3) * 1)) + 0) /
           (2 * (0 * 0 + 0 * 0 + 1 * 1))) with 3 by field.
  replace ((- (2 * ((0 - 0) * 0 + (0 - -1) * 0 + (0 - 3) * 1)) - 0) /
           (2 * (0 * 0 + 0 * 0 + 1 * 1))) with 3 by field.
  unfold try_root, num_geb, num_leb, num_ltb. simpl.
  decide_reals. simpl. decide_reals. reflexivity.
Qed.

Lemma TraceRay_shaded_color_witness :
  let red := mkSphere (mkVec 0 (-1) 3) 1 (mkColor 255 0 0) 500 in
  let P := {| x := x O + 3 * 0; y := y O + 3 * 0; z := z O + 3 * 1 |} in
  let PCx := x P - 0 in
  let PCy := y P - (-1) in
  let PCz := z P - 3 in
  let norm := sqrt (PCx * PCx + PCy * PCy + PCz * PCz) in
  let N := {| x := PCx / norm; y := PCy / norm; z := PCz / norm |} in
  let V := {| x := - 0; y := - 0; z := - 1 |} in
  (norm <> 0 ->
   let i := ComputeLighting scene P N V 500 in
   TraceRay scene O (mkVec 0 0 1) (Fin 1) Infinity =
   {| r := 255 * i; g := 0 * i; b := 0 * i |}) /\
  (norm = 0 ->
   let i := ambient_total (lights scene) in
   TraceRay scene O (mkVec 0 0 1) (Fin 1) Infinity =
   {| r := 255 * i; g := 0 * i; b := 0 * i |}).
Proof.
  exact (TraceRay_shaded_color scene O (mkVec 0 0 1) (Fin 1) Infinity 3 _
           closest_hit_scene_center).
Defined.

(** ** Claims about the projection *)

Lemma sum_squares_zero u v : u * u + v * v + 1 = 1 -> u = 0 /\ v = 0.
Proof. intros H. split; nra. Qed.

(** C7.  For positive canvas dimensions, [CanvasToViewport] returns
    [{x: px * Vw / Cw, y: py * Vh / Ch, z: d}] as it is: the vector is
    not normalized, its length is
    [sqrt ((px * Vw / Cw)^2 + (py * Vh / Ch)^2 + d^2)], which depends on
    the pixel and is 1 only for the pixel [(0, 0)]. *)
Theorem CanvasToViewport_unnormalized :
  forall (Cw Ch px py : R),
    0 < Cw -> 0 < Ch ->
    CanvasToViewport Cw Ch px py
    = {| x := px * Vw / Cw; y := py * Vh / Ch; z := d |} /\
    length (CanvasToViewport Cw Ch px py)
    = sqrt ((px * Vw / Cw) ^ 2 + (py * Vh / Ch) ^ 2 + d ^ 2) /\
    (length (CanvasToViewport Cw Ch px py) = 1 <-> px = 0 /\ py = 0).
Proof.
  intros Cw Ch px py HCw HCh.
  split; [reflexivity|].
  assert (Hlen : length (CanvasToViewport Cw Ch px py)
                 = sqrt ((px * Vw / Cw) ^ 2 + (py * Vh / Ch) ^ 2 + d ^ 2)).
  { unfold length, CanvasToViewport. simpl. f_equal. ring. }
  split; [exact Hlen|]. rewrite Hlen. unfold Vw, Vh, d.
  split.
  - intros H. apply (f_equal (fun u => u * u)) in H.
    rewrite sqrt_sqrt in H by nra.
    assert (Hs : (px / Cw) * (px / Cw) + (py / Ch) * (py / Ch) + 1 = 1)
      by (revert H; unfold Rdiv; intros H; ring_simplify in H;
          ring_simplify; lra).
    apply sum_squares_zero in Hs. destruct Hs as [Hx Hy].
    unfold Rdiv in Hx, Hy.
    assert (/ Cw <> 0) by (apply Rinv_neq_0_compat; lra).
    assert (/ Ch <> 0) by (apply Rinv_neq_0_compat; lra).
    split; [destruct (Rmult_integral _ _ Hx) | destruct (Rmult_integral _ _ Hy)];
      tauto.
  - intros [-> ->].
    replace ((0 * 1 / Cw) ^ 2 + (0 * 1 / Ch) ^ 2 + 1 ^ 2) with 1
      by (unfold Rdiv; ring).
    apply sqrt_1.
Qed.

(** On an 800 x 800 canvas, the pixel at the right edge of the middle
    row gives the direction [(1/2, 0, 1)]. *)
Lemma CanvasToViewport_unnormalized_witness :
  CanvasToViewport 800 800 400 0
  = {| x := 400 * Vw / 800; y := 0 * Vh / 800; z := d |} /\
  length (CanvasToViewport 800 800 400 0)
  = sqrt ((400 * Vw / 800) ^ 2 + (0 * Vh / 800) ^ 2 + d ^ 2) /\
  (length (CanvasToViewport 800 800 400 0) = 1 <-> 400 = 0 /\ 0 = 0).
Proof.
  apply CanvasToViewport_unnormalized; lra.
Defined.

(** ** Claims about [PutPixel] *)

Lemma PutPixel_guard Cw Ch px py :
  num_ltb (Fin px) (Fin 0) || num_geb (Fin px) (Fin Cw)
  || num_ltb (Fin py) (Fin 0) || num_geb (Fin py) (Fin Ch) = false
  <-> inside_raster Cw Ch px py.
Proof.
  unfold inside_raster, num_geb, num_ltb, num_leb.
  destruct (Rlt_dec px 0), (Rle_dec Cw px), (Rlt_dec py 0), (Rle_dec Ch py);
    simpl; split; intros; try discriminate; try reflexivity; lra.
Qed.

Lemma PutPixel_inside Cw Ch x y color data :
  inside_raster Cw Ch (Cw / 2 + x) (Ch / 2 - y) ->
  PutPixel Cw Ch x y color data
  = write_raster Cw (Cw / 2 + x) (Ch / 2 - y) color data.
Proof.
  intros H. apply PutPixel_guard in H. unfold PutPixel. rewrite H.
  reflexivity.
Qed.

(** C9.  When the raster position [(Cw / 2 + x, Ch / 2 - y)] is outside
    [[0, Cw) x [0, Ch)], [PutPixel] returns with the pixel buffer as it
    was; the function has no failing outcome. *)
Theorem PutPixel_out_of_bounds :
  forall (Cw Ch x y : R) (color : Color) (data : Buffer),
    ~ inside_raster Cw Ch (Cw / 2 + x) (Ch / 2 - y) ->
    PutPixel Cw Ch x y color data = data.
Proof.
  intros Cw Ch x y color data Hout. unfold PutPixel.
  destruct (num_ltb (Fin (Cw / 2 + x)) (Fin 0)
            || num_geb (Fin (Cw / 2 + x)) (Fin Cw)
            || num_ltb (Fin (Ch / 2 - y)) (Fin 0)
            || num_geb (Fin (Ch / 2 - y)) (Fin Ch)) eqn:E; [reflexivity|].
  apply PutPixel_guard in E. contradiction.
Qed.

(** On an 800 x 800 canvas the centred column [x = 400] is the raster
    column 800, one past the last. *)
Lemma PutPixel_out_of_bounds_witness :
  PutPixel 800 800 400 0 (mkColor 255 0 0) [1; 2; 3; 4]%Z = [1; 2; 3; 4]%Z.
Proof.
  apply PutPixel_out_of_bounds. unfold inside_raster. lra.
Defined.

(** ** Worked rays *)

(** A unit sphere three units ahead is entered at [t = 2] and left at
    [t = 4]; [t1] is the far root. *)
Lemma IntersectRaySphere_ahead col s :
  IntersectRaySphere O (mkVec 0 0 1) (mkSphere (mkVec 0 0 3) 1 col s)
  = (Fin 4, Fin 2).
Proof.
  rewrite (IntersectRaySphere_hit _ _ _ 2) by (unfold dot, O; simpl; lra).
  unfold dot, O. simpl. f_equal; f_equal; field.
Qed.

(** Two spheres at the same place tie on the smallest root: the first
    of the list gives the colour, in either order. *)
Lemma TraceRay_tie_first_wins :
  let red := mkSphere (mkVec 0 0 3) 1 (mkColor 255 0 0) (-1) in
  let blue := mkSphere (mkVec 0 0 3) 1 (mkColor 0 0 255) (-1) in
  closest_hit [red; blue] O (mkVec 0 0 1) (Fin 1) Infinity
  = (Fin 2, Some red) /\
  Unlit.TraceRay [red; blue] O (mkVec 0 0 1) (Fin 1) Infinity
  = mkColor 255 0 0 /\
  Unlit.TraceRay [blue; red] O (mkVec 0 0 1) (Fin 1) Infinity
  = mkColor 0 0 255.
Proof.
  intros red blue.
  unfold Unlit.TraceRay, closest_hit, fold_left, closest_step, red, blue.
  rewrite !IntersectRaySphere_ahead.
  repeat split; eval_try_root; reflexivity.
Qed.

(** A missed sphere reports [(Infinity, Infinity)]; with the upper bound
    [Infinity] these pass both bound tests but never the strict test
    against the initial [closest_t = Infinity], so nothing is
    selected. *)
Lemma TraceRay_miss_with_infinite_bound :
  let ball := mkSphere (mkVec 0 0 4) 1 (mkColor 255 0 0) (-1) in
  IntersectRaySphere O (mkVec 1 0 0) ball = (Infinity, Infinity) /\
  closest_hit [ball] O (mkVec 1 0 0) (Fin 1) Infinity = (Infinity, None) /\
  TraceRay (mkScene [ball] [ambient 1]) O (mkVec 1 0 0) (Fin 1) Infinity
  = BACKGROUND_COLOR.
Proof.
  intros ball.
  assert (H : IntersectRaySphere O (mkVec 1 0 0) ball = (Infinity, Infinity))
    by (apply IntersectRaySphere_miss; unfold dot, O, ball; simpl; lra).
  split; [exact H|].
  unfold TraceRay, closest_hit, spheres, fold_left, closest_step.
  rewrite H. split; reflexivity.
Qed.

(** One ambient light of intensity 2 doubles the colour: the red
    channel leaves [TraceRay] as 510, above 255. *)
Lemma TraceRay_not_clamped :
  let ball := mkSphere (mkVec 0 0 3) 1 (mkColor 255 0 0) (-1) in
  TraceRay (mkScene [ball] [ambient 2]) O (mkVec 0 0 1) (Fin 1) Infinity
  = mkColor 510 0 0.
Proof.
  intros ball.
  assert (H : closest_hit [ball] O (mkVec 0 0 1) (Fin 1) Infinity
              = (Fin 2, Some ball)).
  { unfold closest_hit, fold_left, closest_step, ball.
    rewrite IntersectRaySphere_ahead. eval_try_root. reflexivity. }
  rewrite (TraceRay_hit (mkScene [ball] [ambient 2]) _ _ _ _ 2 ball H).
  cbv zeta. destruct (Req_dec_T _ 0);
    unfold ComputeLighting, ComputeLighting_NaN_normal; simpl;
    f_equal; ring.
Qed.

(** ** The bytes [PutPixel] writes *)

Lemma Int_part_IZR n : Int_part (IZR n) = n.
Proof. symmetry. apply Int_part_spec. lra. Qed.

Lemma store_index n v data :
  (0 <= n < Z.of_nat (List.length data))%Z ->
  store (IZR n) v data = set_nth (Z.to_nat n) (ToUint8Clamp v) data.
Proof.
  intros [H0 Hlen]. unfold store. rewrite Int_part_IZR.
  destruct (Req_dec_T (IZR n) (IZR n)) as [_ | Hne]; [|congruence].
  apply Z.leb_le in H0. apply Z.ltb_lt in Hlen. now rewrite H0, Hlen.
Qed.

(** A key that is not an integer is no element of the array. *)
Lemma store_fractional index v data :
  IZR (Int_part index) <> index -> store index v data = data.
Proof.
  intros H. unfold store.
  destruct (Req_dec_T (IZR (Int_part index)) index); [contradiction|].
  reflexivity.
Qed.

Lemma set_nth_length v : forall data n,
  List.length (set_nth n v data) = List.length data.
Proof.
  induction data as [|u rest IH]; intros [|n]; simpl; auto.
Qed.

Lemma store_length index v data :
  List.length (store index v data) = List.length data.
Proof.
  unfold store. destruct (Req_dec_T _ index); [|reflexivity].
  destruct (_ && _)%bool; [apply set_nth_length | reflexivity].
Qed.

Lemma set_nth_same v : forall data n,
  (n < List.length data)%nat -> nth_error (set_nth n v data) n = Some v.
Proof.
  induction data as [|u rest IH]; intros [|n]; simpl; intros H;
    try lia; auto. apply IH. lia.
Qed.

Lemma set_nth_other v : forall data n k,
  k <> n -> nth_error (set_nth n v data) k = nth_error data k.
Proof.
  induction data as [|u rest IH]; intros [|n] [|k]; simpl; intros H;
    auto; try congruence.
Qed.

Lemma ToUint8Clamp_255 : ToUint8Clamp 255 = 255%Z.
Proof. unfold ToUint8Clamp. decide_reals; reflexivity. Qed.

(** X2.  On a [W] x [H] canvas with a full RGBA buffer, the centred
    coordinate that lands on column [px] of row [py] has its colour
    written, clamped, in the four bytes at [4 * (px + py * W)], alpha
    255, and every other byte is kept. *)
Lemma PutPixel_bytes (W H px py : Z) (color : Color) (data : Buffer) :
  (0 <= px < W)%Z -> (0 <= py < H)%Z ->
  Z.of_nat (List.length data) = (4 * W * H)%Z ->
  let out := PutPixel (IZR W) (IZR H)
               (IZR px - IZR W / 2) (IZR H / 2 - IZR py) color data in
  let base := Z.to_nat (4 * (px + py * W)) in
  List.length out = List.length data /\
  nth_error out base = Some (ToUint8Clamp (r color)) /\
  nth_error out (base + 1) = Some (ToUint8Clamp (g color)) /\
  nth_error out (base + 2) = Some (ToUint8Clamp (b color)) /\
  nth_error out (base + 3) = Some 255%Z /\
  (forall k, (k < base \/ base + 3 < k)%nat ->
             nth_error out k = nth_error data k).
Proof.
  intros Hpx Hpy Hlen out base.
  assert (Hin : inside_raster (IZR W) (IZR H)
                  (IZR W / 2 + (IZR px - IZR W / 2))
                  (IZR H / 2 - (IZR H / 2 - IZR py))).
  { unfold inside_raster.
    replace (IZR W / 2 + (IZR px - IZR W / 2)) with (IZR px) by lra.
    replace (IZR H / 2 - (IZR H / 2 - IZR py)) with (IZR py) by lra.
    destruct Hpx as [Hp0 HpW], Hpy as [Hq0 HqH].
    apply IZR_le in Hp0, Hq0. apply IZR_lt in HpW, HqH. lra. }
  assert (Hbase : (4 * (px + py * W) + 3 < 4 * W * H)%Z) by nia.
  assert (Hbase0 : (0 <= 4 * (px + py * W))%Z) by nia.
  assert (Hidx : forall k : Z,
             (IZR W / 2 + (IZR px - IZR W / 2)
              + (IZR H / 2 - (IZR H / 2 - IZR py)) * IZR W) * 4 + IZR k
             = IZR (4 * (px + py * W) + k)).
  { intros k. rewrite plus_IZR, !mult_IZR, plus_IZR, mult_IZR. lra. }
  unfold out. rewrite (PutPixel_inside _ _ _ _ _ _ Hin). unfold write_raster.
  rewrite (Hidx 0%Z), (Hidx 1%Z), (Hidx 2%Z), (Hidx 3%Z).
  rewrite !store_index by (rewrite ?store_length, ?set_nth_length; lia).
  rewrite ToUint8Clamp_255.
  replace (Z.to_nat (4 * (px + py * W) + 0)) with base by (unfold base; lia).
  replace (Z.to_nat (4 * (px + py * W) + 1)) with (base + 1)%nat
    by (unfold base; lia).
  replace (Z.to_nat (4 * (px + py * W) + 2)) with (base + 2)%nat
    by (unfold base; lia).
  replace (Z.to_nat (4 * (px + py * W) + 3)) with (base + 3)%nat
    by (unfold base; lia).
  assert (Hb : (base + 3 < List.length data)%nat) by (unfold base; lia).
  repeat split.
  - now rewrite !set_nth_length.
  - rewrite !set_nth_other by lia. apply set_nth_same. lia.
  - rewrite !set_nth_other by lia. apply set_nth_same.
    rewrite set_nth_length. lia.
  - rewrite set_nth_other by lia. apply set_nth_same.
    rewrite !set_nth_length. lia.
  - apply set_nth_same. rewrite !set_nth_length. lia.
  - intros k Hk. rewrite !set_nth_other by lia. reflexivity.
Qed.

(** ** What the roots mean *)

(** X1.  For a direction that is not the zero vector, the roots reported
    by [IntersectRaySphere] are exactly the parameters [t] at which the
    point [O + t * D] of the ray lies on the sphere. *)
Lemma IntersectRaySphere_on_sphere O D sphere t :
  dot D D <> 0 ->
  is_root O D sphere t <->
  dot (subtract (add O (multiply D t)) (center sphere))
      (subtract (add O (multiply D t)) (center sphere))
  = radius sphere * radius sphere.
Proof.
  intros Ha.
  set (CO := subtract O (center sphere)).
  set (qa := dot D D) in *.
  set (qb := 2 * dot CO D).
  set (qc := dot CO CO - radius sphere * radius sphere).
  assert (Hpoly :
    dot (subtract (add O (multiply D t)) (center sphere))
        (subtract (add O (multiply D t)) (center sphere))
    - radius sphere * radius sphere = qa * t * t + qb * t + qc)
    by (unfold qa, qb, qc, CO, dot, subtract, add, multiply; simpl; ring).
  split.
  - intros Hroot. unfold is_root, IntersectRaySphere in Hroot.
    fold CO qa qb qc in Hroot.
    destruct (Rlt_dec (qb * qb - 4 * qa * qc) 0) as [Hneg | Hpos].
    + simpl in Hroot. destruct Hroot; discriminate.
    + assert (Hq : sqrt (qb * qb - 4 * qa * qc)
                   * sqrt (qb * qb - 4 * qa * qc)
                   = qb * qb - 4 * qa * qc) by (apply sqrt_sqrt; lra).
      set (q := sqrt (qb * qb - 4 * qa * qc)) in *.
      assert (Hlin : 2 * qa * t + qb = q \/ 2 * qa * t + qb = - q).
      { rewrite !num_div_nonzero in Hroot by lra. simpl in Hroot.
        destruct Hroot as [[= <-] | [= <-]];
          [left | right]; field; assumption. }
      assert (Hzero : 4 * qa * (qa * t * t + qb * t + qc) = 0)
        by (destruct Hlin as [Hl | Hl]; nra).
      apply Rmult_integral in Hzero. destruct Hzero as [Hz | Hz]; lra.
  - intros Hon.
    assert (Hzero : qa * t * t + qb * t + qc = 0) by lra.
    assert (Hd : qb * qb - 4 * qa * qc
                 = Rabs (2 * qa * t + qb) * Rabs (2 * qa * t + qb)).
    { replace (Rabs (2 * qa * t + qb) * Rabs (2 * qa * t + qb))
        with (Rsqr (Rabs (2 * qa * t + qb))) by reflexivity.
      rewrite <- Rsqr_abs. unfold Rsqr. nra. }
    unfold is_root.
    rewrite (IntersectRaySphere_hit O D sphere (Rabs (2 * qa * t + qb)))
      by (fold CO qa qb qc; first [exact Ha | apply Rabs_pos | exact Hd]).
    fold CO qa qb. simpl.
    destruct (Rcase_abs (2 * qa * t + qb)) as [Hlt | Hge].
    + right. rewrite (Rabs_left _ Hlt). f_equal. field. assumption.
    + left. rewrite (Rabs_right _ Hge). f_equal. field. assumption.
Qed.

(** ** Instances *)

(** The unit sphere three units ahead is entered at [t = 2]. *)
Lemma IntersectRaySphere_on_sphere_witness :
  let ball := mkSphere (mkVec 0 0 3) 1 (mkColor 255 0 0) (-1) in
  is_root O (mkVec 0 0 1) ball 2 <->
  dot (subtract (add O (multiply (mkVec 0 0 1) 2)) (center ball))
      (subtract (add O (multiply (mkVec 0 0 1) 2)) (center ball))
  = radius ball * radius ball.
Proof.
  intros ball. apply IntersectRaySphere_on_sphere.
  unfold dot. simpl. lra.
Defined.

(** The bottom-right pixel of a 2 x 2 canvas occupies bytes 12 to 15. *)
Lemma PutPixel_bytes_witness :
  let out := PutPixel 2 2 (1 - 2 / 2) (2 / 2 - 1) (mkColor 255 0 0)
               (repeat 0%Z 16) in
  let base := Z.to_nat (4 * (1 + 1 * 2)) in
  List.length out = List.length (repeat 0%Z 16) /\
  nth_error out base = Some (ToUint8Clamp 255) /\
  nth_error out (base + 1) = Some (ToUint8Clamp 0) /\
  nth_error out (base + 2) = Some (ToUint8Clamp 0) /\
  nth_error out (base + 3) = Some 255%Z /\
  (forall k, (k < base \/ base + 3 < k)%nat ->
             nth_error out k = nth_error (repeat 0%Z 16) k).
Proof.
  apply (PutPixel_bytes 2 2 1 1 (mkColor 255 0 0) (repeat 0%Z 16));
    simpl; lia.
Defined.

(** ** Vector helpers: lengths and angles *)

Lemma dot_self_nonneg (v : Vec) : 0 <= dot v v.
Proof. unfold dot. nra. Qed.

Lemma length_sqr (v : Vec) : length v * length v = dot v v.
Proof. unfold length. apply sqrt_sqrt. apply dot_self_nonneg. Qed.

Lemma length_ge_0 (v : Vec) : 0 <= length v.
Proof. apply sqrt_pos. Qed.

(** The squared dot product is at most the product of the squared
    lengths (Lagrange's identity). *)
Lemma dot_sqr_le (u w : Vec) : dot u w * dot u w <= dot u u * dot w w.
Proof.
  unfold dot.
  assert (H : (x u * x u + y u * y u + z u * z u)
              * (x w * x w + y w * y w + z w * z w)
              - (x u * x w + y u * y w + z u * z w)
                * (x u * x w + y u * y w + z u * z w)
              = (x u * y w - y u * x w) * (x u * y w - y u * x w)
                + (x u * z w - z u * x w) * (x u * z w - z u * x w)
                + (y u * z w - z u * y w) * (y u * z w - z u * y w))
    by ring.
  pose proof (Rle_0_sqr (x u * y w - y u * x w)) as H1.
  pose proof (Rle_0_sqr (x u * z w - z u * x w)) as H2.
  pose proof (Rle_0_sqr (y u * z w - z u * y w)) as H3.
  unfold Rsqr in H1, H2, H3. lra.
Qed.

(** X3.  [dot] and [length] satisfy the Cauchy-Schwarz inequality:
    [|dot(u, w)| <= length(u) * length(w)]. *)
Lemma dot_le_lengths :
  forall u w : Vec, Rabs (dot u w) <= length u * length w.
Proof.
  intros u w.
  apply Rsqr_incr_0_var.
  - rewrite <- Rsqr_abs. unfold Rsqr.
    replace (length u * length w * (length u * length w))
      with ((length u * length u) * (length w * length w)) by ring.
    rewrite !length_sqr. apply dot_sqr_le.
  - apply Rmult_le_pos; apply length_ge_0.
Qed.

Lemma length_multiply (v : Vec) (c : R) :
  length (multiply v c) = Rabs c * length v.
Proof.
  unfold length, multiply. simpl.
  replace (x v * c * (x v * c) + y v * c * (y v * c) + z v * c * (z v * c))
    with (Rsqr c * (x v * x v + y v * y v + z v * z v))
    by (unfold Rsqr; ring).
  rewrite sqrt_mult_alt by apply Rle_0_sqr.
  now rewrite sqrt_Rsqr_abs.
Qed.

Lemma divide_by_length_unit_aux (v : Vec) :
  length v <> 0 -> length (divide v (length v)) = 1.
Proof.
  intros Hne.
  assert (Hd : divide v (length v) = multiply v (/ length v))
    by reflexivity.
  rewrite Hd, length_multiply.
  pose proof (length_ge_0 v) as Hpos.
  rewrite Rabs_right.
  - field. assumption.
  - apply Rle_ge, Rlt_le, Rinv_0_lt_compat. lra.
Qed.

(** X4.  Dividing a vector by its own length, as [TraceRay] does to get
    the normal, gives a vector of length 1, provided the vector is not
    the zero vector (its length is not 0); and scaling a vector by [c]
    scales its length by [|c|]. *)
Lemma divide_by_length_unit :
  forall (v : Vec) (c : R),
    length v <> 0 ->
    length (divide v (length v)) = 1 /\
    length (multiply v c) = Rabs c * length v.
Proof.
  intros v c Hne. split.
  - now apply divide_by_length_unit_aux.
  - apply length_multiply.
Qed.

Lemma divide_by_length_unit_witness :
  length (divide (mkVec 0 0 2) (length (mkVec 0 0 2))) = 1 /\
  length (multiply (mkVec 0 0 2) (-3)) = Rabs (-3) * length (mkVec 0 0 2).
Proof.
  apply divide_by_length_unit.
  unfold length. simpl.
  replace (0 * 0 + 0 * 0 + 2 * 2) with (2 * 2) by ring.
  rewrite sqrt_square; lra.
Defined.

(** ** More about [IntersectRaySphere] *)

(** The shape of a result: a miss, or two real roots tied to the
    discriminant through its square root [q]. *)
Lemma IntersectRaySphere_cases O D sphere :
  let CO := subtract O (center sphere) in
  let qa := dot D D in
  let qb := 2 * dot CO D in
  let qc := dot CO CO - radius sphere * radius sphere in
  qa <> 0 ->
  (qb * qb - 4 * qa * qc < 0 /\
   IntersectRaySphere O D sphere = (Infinity, Infinity)) \/
  (exists q, 0 <= q /\ q * q = qb * qb - 4 * qa * qc /\
             IntersectRaySphere O D sphere
             = (Fin ((- qb + q) / (2 * qa)), Fin ((- qb - q) / (2 * qa)))).
Proof.
  intros CO qa qb qc Ha. unfold IntersectRaySphere. fold CO qa qb qc.
  destruct (Rlt_dec (qb * qb - 4 * qa * qc) 0) as [Hneg | Hpos].
  - left. auto.
  - right. exists (sqrt (qb * qb - 4 * qa * qc)).
    split; [apply sqrt_pos|]. split; [apply sqrt_sqrt; lra|].
    rewrite !num_div_nonzero by lra. reflexivity.
Qed.

(** X5.  For a direction that is not the zero vector, the second number
    [IntersectRaySphere] returns is the near root and the first the far
    one, [t2 <= t1], and their mean is the ray parameter of the point
    nearest to the sphere's centre, [dot(center - O, D) / dot(D, D)]. *)
Lemma IntersectRaySphere_ordered :
  forall (O D : Vec) (sphere : Sphere) (t1 t2 : R),
    dot D D <> 0 ->
    IntersectRaySphere O D sphere = (Fin t1, Fin t2) ->
    t2 <= t1 /\
    (t1 + t2) / 2 = dot (subtract (center sphere) O) D / dot D D.
Proof.
  intros O D sphere t1 t2 Ha Hres.
  assert (Hpos : 0 < dot D D)
    by (pose proof (dot_self_nonneg D); lra).
  destruct (IntersectRaySphere_cases O D sphere Ha)
    as [[_ Hmiss] | (q & Hq & _ & Hhit)].
  - rewrite Hmiss in Hres. discriminate.
  - rewrite Hhit in Hres. injection Hres as <- <-.
    set (qb := 2 * dot (subtract O (center sphere)) D).
    split.
    + unfold Rdiv. apply Rmult_le_compat_r.
      * apply Rlt_le, Rinv_0_lt_compat. lra.
      * lra.
    + unfold qb, dot, subtract. simpl. fold (dot D D). field. assumption.
Qed.

Lemma IntersectRaySphere_ordered_witness :
  2 <= 4 /\
  (4 + 2) / 2
  = dot (subtract (center (mkSphere (mkVec 0 0 3) 1 (mkColor 255 0 0) (-1))) O)
        (mkVec 0 0 1)
    / dot (mkVec 0 0 1) (mkVec 0 0 1).
Proof.
  apply (IntersectRaySphere_ordered O (mkVec 0 0 1)
           (mkSphere (mkVec 0 0 3) 1 (mkColor 255 0 0) (-1)) 4 2).
  - unfold dot. simpl. lra.
  - apply IntersectRaySphere_ahead.
Defined.

(** X6.  When the ray origin is strictly inside the sphere, every
    non-zero direction hits it: the two roots are real, the near one
    negative (behind the origin) and the far one positive. *)
Lemma IntersectRaySphere_origin_inside :
  forall (O D : Vec) (sphere : Sphere),
    dot D D <> 0 ->
    dot (subtract O (center sphere)) (subtract O (center sphere))
    < radius sphere * radius sphere ->
    exists t1 t2,
      IntersectRaySphere O D sphere = (Fin t1, Fin t2) /\ t2 < 0 < t1.
Proof.
  intros O D sphere Ha Hin.
  assert (Hpos : 0 < dot D D)
    by (pose proof (dot_self_nonneg D); lra).
  destruct (IntersectRaySphere_cases O D sphere Ha)
    as [[Hneg _] | (q & Hq & Hqq & Hhit)].
  - exfalso.
    set (qb := 2 * dot (subtract O (center sphere)) D) in *.
    assert (0 <= qb * qb) by nra. nra.
  - rewrite Hhit. eexists. eexists. split; [reflexivity|].
    set (qb := 2 * dot (subtract O (center sphere)) D) in *.
    set (qc := dot (subtract O (center sphere)) (subtract O (center sphere))
               - radius sphere * radius sphere) in *.
    assert (Hc : qc < 0) by (unfold qc; lra).
    assert (Hlt : qb * qb < q * q) by nra.
    assert (Hq1 : - q < qb) by nra.
    assert (Hq2 : qb < q) by nra.
    assert (Hinv : 0 < / (2 * dot D D))
      by (apply Rinv_0_lt_compat; lra).
    unfold Rdiv. set (inv := / (2 * dot D D)) in *. split; nra.
Qed.

Lemma IntersectRaySphere_origin_inside_witness :
  exists t1 t2,
    IntersectRaySphere O (mkVec 0 0 1)
      (mkSphere (mkVec 0 0 1) 2 (mkColor 255 0 0) (-1))
    = (Fin t1, Fin t2) /\ t2 < 0 < t1.
Proof.
  apply IntersectRaySphere_origin_inside; unfold dot; simpl; lra.
Defined.

(** X7.  Lengthening the direction by [k > 0] divides both roots by
    [k] and keeps a miss a miss: the ray meets the sphere at the same
    points, so directions need not be normalized. *)
Lemma IntersectRaySphere_direction_scale :
  forall (O D : Vec) (sphere : Sphere) (k : R),
    0 < k -> dot D D <> 0 ->
    IntersectRaySphere O (multiply D k) sphere
    = match IntersectRaySphere O D sphere with
      | (Fin t1, Fin t2) => (Fin (t1 / k), Fin (t2 / k))
      | miss => miss
      end.
Proof.
  intros O D sphere k Hk Ha.
  set (CO := subtract O (center sphere)).
  assert (Ha' : dot (multiply D k) (multiply D k) = k * k * dot D D)
    by (unfold dot, multiply; simpl; ring).
  assert (Hb' : 2 * dot CO (multiply D k) = k * (2 * dot CO D))
    by (unfold dot, multiply; simpl; ring).
  destruct (IntersectRaySphere_cases O D sphere Ha)
    as [[Hneg Hmiss] | (q & Hq & Hqq & Hhit)];
    fold CO in Hneg || fold CO in Hqq.
  - rewrite Hmiss. apply IntersectRaySphere_miss. fold CO.
    rewrite Ha', Hb'.
    set (qb := 2 * dot CO D) in *. set (qa := dot D D) in *.
    set (qc := dot CO CO - radius sphere * radius sphere) in *.
    replace (k * qb * (k * qb) - 4 * (k * k * qa) * qc)
      with (k * k * (qb * qb - 4 * qa * qc)) by ring.
    assert (0 < k * k) by nra. nra.
  - rewrite Hhit.
    rewrite (IntersectRaySphere_hit O (multiply D k) sphere (k * q)).
    + fold CO. rewrite Ha', Hb'. f_equal; f_equal; field; lra.
    + rewrite Ha'. intros H0. apply Rmult_integral in H0.
      destruct H0 as [H0 | H0]; [nra | contradiction].
    + nra.
    + fold CO. rewrite Ha', Hb'. nra.
Qed.

Lemma IntersectRaySphere_direction_scale_witness :
  IntersectRaySphere O (multiply (mkVec 0 0 1) 2)
    (mkSphere (mkVec 0 0 3) 1 (mkColor 255 0 0) (-1))
  = match IntersectRaySphere O (mkVec 0 0 1)
            (mkSphere (mkVec 0 0 3) 1 (mkColor 255 0 0) (-1)) with
    | (Fin t1, Fin t2) => (Fin (t1 / 2), Fin (t2 / 2))
    | miss => miss
    end.
Proof.
  apply IntersectRaySphere_direction_scale; [lra|].
  unfold dot. simpl. lra.
Defined.

(** ** The rays [render] casts *)

(** X8.  On a canvas with [Cw <> 0] and [Ch <> 0], every direction
    [CanvasToViewport] returns has [z = d = 1]: it is never the zero
    vector, [dot(D, D) >= 1], so the division by [2 * dot(D, D)] in
    [IntersectRaySphere] is never a division by zero for a ray cast by
    [render]. *)
Lemma CanvasToViewport_nonzero :
  forall Cw Ch px py : R,
    Cw <> 0 -> Ch <> 0 ->
    let D := CanvasToViewport Cw Ch px py in
    z D = 1 /\ 1 <= dot D D /\ 2 * dot D D <> 0 /\ 1 <= length D.
Proof.
  intros Cw Ch px py _ _ D.
  assert (Hz : z D = 1) by reflexivity.
  assert (Hd : 1 <= dot D D).
  { unfold dot. rewrite Hz.
    pose proof (Rle_0_sqr (x D)) as Hx. pose proof (Rle_0_sqr (y D)) as Hy.
    unfold Rsqr in Hx, Hy. lra. }
  repeat split; try assumption; [lra|].
  rewrite <- sqrt_1. unfold length. apply sqrt_le_1_alt. exact Hd.
Qed.

Lemma CanvasToViewport_nonzero_witness :
  let D := CanvasToViewport 800 800 400 0 in
  z D = 1 /\ 1 <= dot D D /\ 2 * dot D D <> 0 /\ 1 <= length D.
Proof.
  apply CanvasToViewport_nonzero; lra.
Defined.

(** ** More about the closest-hit loop *)

Lemma candidate_in_nth sphs O D t_min t_max t :
  (exists sphere, In sphere sphs /\ candidate O D t_min t_max sphere t) <->
  (exists j, seen sphs O D t_min t_max (List.length sphs) j t).
Proof.
  split.
  - intros (s & Hin & Hc). apply In_nth_error in Hin.
    destruct Hin as [j Hj]. exists j. apply seen_all. eauto.
  - intros (j & Hj). apply seen_all in Hj. destruct Hj as (s & Hs & Hc).
    exists s. split; [eapply nth_error_In; eassumption | assumption].
Qed.

(** The distance found is the least candidate of the list, whatever
    the positions. *)
Lemma closest_hit_least sphs O D t_min t_max :
  match closest_hit sphs O D t_min t_max with
  | (Infinity, None) =>
      forall sphere t, In sphere sphs -> ~ candidate O D t_min t_max sphere t
  | (Fin t, Some _) =>
      (exists sphere, In sphere sphs /\ candidate O D t_min t_max sphere t) /\
      (forall sphere t',
          In sphere sphs -> candidate O D t_min t_max sphere t' -> t <= t')
  | _ => False
  end.
Proof.
  pose proof (closest_hit_inv sphs O D t_min t_max) as Hinv.
  destruct (closest_hit sphs O D t_min t_max) as [[t| | |] [s|]];
    simpl in Hinv; try contradiction.
  - destruct Hinv as (i & Hi & _ & Hmin). split.
    + apply candidate_in_nth. eauto.
    + intros sphere t' Hin Hc.
      destruct (proj1 (candidate_in_nth sphs O D t_min t_max t')) as [j Hj];
        [eauto|]. apply (Hmin j t' Hj).
  - intros sphere t Hin Hc.
    destruct (proj1 (candidate_in_nth sphs O D t_min t_max t)) as [j Hj];
      [eauto|]. exact (Hinv j t Hj).
Qed.

(** The sphere the loop selects is in the list and attains the
    distance found. *)
Lemma closest_hit_selected sphs O D t_min t_max t sphere :
  closest_hit sphs O D t_min t_max = (Fin t, Some sphere) ->
  In sphere sphs /\ candidate O D t_min t_max sphere t.
Proof.
  intros Hres.
  pose proof (closest_hit_inv sphs O D t_min t_max) as Hinv.
  rewrite Hres in Hinv. simpl in Hinv.
  destruct Hinv as (i & Hi & Hn & _). apply seen_all in Hi.
  destruct Hi as (s & Hs & Hc).
  assert (s = sphere) as -> by congruence.
  split; [eapply nth_error_In; eassumption | assumption].
Qed.

(** X9.  The distance [closest_t] the loop ends with does not depend on
    the order of the spheres in the scene: for a permutation of the
    list it is the same number, and a sphere is selected for the one
    list exactly when one is selected for the other.  Only the choice
    among spheres tied at that distance can depend on the order: the
    two selected spheres both have a root equal to [closest_t] inside
    the bounds, and they are the same sphere when no other sphere of
    the scene has such a root. *)
Lemma closest_hit_permutation :
  forall (sphs sphs' : list Sphere) (O D : Vec) (t_min t_max : num),
    Permutation sphs sphs' ->
    fst (closest_hit sphs O D t_min t_max)
    = fst (closest_hit sphs' O D t_min t_max) /\
    (snd (closest_hit sphs O D t_min t_max) = None <->
     snd (closest_hit sphs' O D t_min t_max) = None) /\
    (forall s s',
        snd (closest_hit sphs O D t_min t_max) = Some s ->
        snd (closest_hit sphs' O D t_min t_max) = Some s' ->
        exists t,
          fst (closest_hit sphs O D t_min t_max) = Fin t /\
          In s sphs /\ In s' sphs /\
          candidate O D t_min t_max s t /\
          candidate O D t_min t_max s' t /\
          ((forall a, In a sphs -> candidate O D t_min t_max a t -> a = s) ->
           s' = s)).
Proof.
  intros sphs sphs' O D t_min t_max Hperm.
  pose proof (closest_hit_least sphs O D t_min t_max) as H1.
  pose proof (closest_hit_least sphs' O D t_min t_max) as H2.
  pose proof (closest_hit_selected sphs O D t_min t_max) as S1.
  pose proof (closest_hit_selected sphs' O D t_min t_max) as S2.
  assert (Hin : forall s, In s sphs <-> In s sphs').
  { intros s. split; apply Permutation_in;
      [assumption | now apply Permutation_sym]. }
  destruct (closest_hit sphs O D t_min t_max) as [[t| | |] [s|]];
    destruct (closest_hit sphs' O D t_min t_max) as [[t'| | |] [s'|]];
    simpl; try contradiction.
  - destruct H1 as [(a & Ha & Hca) Hmin1], H2 as [(a' & Ha' & Hca') Hmin2].
    assert (t <= t') by (apply (Hmin1 a'); [now apply Hin | assumption]).
    assert (t' <= t) by (apply (Hmin2 a); [now apply Hin | assumption]).
    assert (t' = t) as -> by lra.
    split; [reflexivity|]. split; [split; discriminate|].
    intros s0 s0' [= <-] [= <-].
    destruct (S1 t s eq_refl) as [HsIn Hsc].
    destruct (S2 t s' eq_refl) as [HsIn' Hsc'].
    exists t. split; [reflexivity|]. split; [assumption|].
    split; [now apply Hin|]. split; [assumption|]. split; [assumption|].
    intros Huniq. apply Huniq; [now apply Hin | assumption].
  - exfalso. destruct H1 as [(a & Ha & Hca) _].
    apply (H2 a t); [now apply Hin | assumption].
  - exfalso. destruct H2 as [(a & Ha & Hca) _].
    apply (H1 a t'); [now apply Hin | assumption].
  - split; [reflexivity|]. split; [tauto|]. intros s s' Hs. discriminate.
Qed.

Lemma closest_hit_permutation_witness :
  let red := mkSphere (mkVec 0 0 3) 1 (mkColor 255 0 0) (-1) in
  let blue := mkSphere (mkVec 0 0 6) 1 (mkColor 0 0 255) (-1) in
  fst (closest_hit [red; blue] O (mkVec 0 0 1) (Fin 1) Infinity)
  = fst (closest_hit [blue; red] O (mkVec 0 0 1) (Fin 1) Infinity) /\
  (snd (closest_hit [red; blue] O (mkVec 0 0 1) (Fin 1) Infinity) = None <->
   snd (closest_hit [blue; red] O (mkVec 0 0 1) (Fin 1) Infinity) = None) /\
  (forall s s',
      snd (closest_hit [red; blue] O (mkVec 0 0 1) (Fin 1) Infinity)
      = Some s ->
      snd (closest_hit [blue; red] O (mkVec 0 0 1) (Fin 1) Infinity)
      = Some s' ->
      exists t,
        fst (closest_hit [red; blue] O (mkVec 0 0 1) (Fin 1) Infinity)
        = Fin t /\
        In s [red; blue] /\ In s' [red; blue] /\
        candidate O (mkVec 0 0 1) (Fin 1) Infinity s t /\
        candidate O (mkVec 0 0 1) (Fin 1) Infinity s' t /\
        ((forall a, In a [red; blue] ->
                    candidate O (mkVec 0 0 1) (Fin 1) Infinity a t -> a = s) ->
         s' = s)).
Proof.
  intros red blue. apply closest_hit_permutation. apply perm_swap.
Defined.

Lemma try_root_skip t_min t_max sphere (t : num) st :
  t <> NegInfinity ->
  (forall v, t = Fin v -> ~ in_range t_min t_max v) ->
  try_root t_min t_max sphere t st = st.
Proof.
  intros Hneg Hno.
  destruct (try_root_cases t_min t_max sphere t st Hneg)
    as [(v & Hv & Hr & _) | [Hst _]]; [|assumption].
  exfalso. exact (Hno v Hv Hr).
Qed.

(** X10.  A sphere none of whose roots lies inside the ray bounds (one
    the ray misses, or one wholly behind [t_min] or beyond [t_max]) is
    invisible to the loop: removing it from the scene, wherever it
    stands in the list, changes neither [closest_t] nor
    [closest_sphere]. *)
Lemma closest_hit_skip_sphere :
  forall (pre post : list Sphere) (sphere : Sphere) (O D : Vec)
         (t_min t_max : num),
    (forall t, ~ candidate O D t_min t_max sphere t) ->
    closest_hit (pre ++ sphere :: post) O D t_min t_max
    = closest_hit (pre ++ post) O D t_min t_max.
Proof.
  intros pre post sphere O D t_min t_max Hno.
  unfold closest_hit. rewrite !fold_left_app. simpl. f_equal.
  generalize (fold_left (closest_step O D t_min t_max) pre (Infinity, None)).
  intros st. unfold closest_step.
  destruct (IntersectRaySphere_not_NegInfinity O D sphere) as [Hn1 Hn2].
  destruct (IntersectRaySphere O D sphere) as [t1 t2] eqn:E.
  simpl in Hn1, Hn2.
  rewrite !try_root_skip; try assumption; [reflexivity | |];
    intros v -> Hr; apply (Hno v); (split; [|assumption]);
    unfold is_root; rewrite E; simpl; auto.
Qed.

(** The yellow ground sphere of the scene is missed by the ray through
    the centre of the canvas. *)
Lemma closest_hit_skip_sphere_witness :
  closest_hit
    ([ mkSphere (mkVec 0 (-1) 3) 1 (mkColor 255 0 0) 500 ]
       ++ mkSphere (mkVec 0 (-5001) 0) 5000 (mkColor 255 255 0) 1000 :: [])
    O (mkVec 0 0 1) (Fin 1) Infinity
  = closest_hit
      ([ mkSphere (mkVec 0 (-1) 3) 1 (mkColor 255 0 0) 500 ] ++ [])
      O (mkVec 0 0 1) (Fin 1) Infinity.
Proof.
  apply closest_hit_skip_sphere.
  intros t [Hroot _]. unfold is_root in Hroot.
  rewrite IntersectRaySphere_miss in Hroot by (unfold dot, O; simpl; lra).
  destruct Hroot; discriminate.
Defined.

(** A root is a ray parameter of a point of the sphere. *)
Lemma root_on_sphere O D sphere t :
  dot D D <> 0 ->
  is_root O D sphere t ->
  dot (subtract (add O (multiply D t)) (center sphere))
      (subtract (add O (multiply D t)) (center sphere))
  = radius sphere * radius sphere.
Proof.
  intros Ha Hroot. unfold is_root in Hroot.
  set (CO := subtract O (center sphere)).
  assert (Hpoly :
    dot (subtract (add O (multiply D t)) (center sphere))
        (subtract (add O (multiply D t)) (center sphere))
    - radius sphere * radius sphere
    = dot D D * t * t + 2 * dot CO D * t
      + (dot CO CO - radius sphere * radius sphere))
    by (unfold CO, dot, subtract, add, multiply; simpl; ring).
  destruct (IntersectRaySphere_cases O D sphere Ha)
    as [[_ Hmiss] | (q & Hq & Hqq & Hhit)]; fold CO in Hqq || idtac.
  - rewrite Hmiss in Hroot. destruct Hroot; discriminate.
  - rewrite Hhit in Hroot. fold CO in Hroot. simpl in Hroot.
    set (qa := dot D D) in *. set (qb := 2 * dot CO D) in *.
    set (qc := dot CO CO - radius sphere * radius sphere) in *.
    assert (Hlin : 2 * qa * t + qb = q \/ 2 * qa * t + qb = - q).
    { destruct Hroot as [[= <-] | [= <-]]; [left | right]; field;
        assumption. }
    assert (Hzero : 4 * qa * (qa * t * t + qb * t + qc) = 0)
      by (destruct Hlin as [Hl | Hl]; nra).
    apply Rmult_integral in Hzero. destruct Hzero as [Hz | Hz]; lra.
Qed.

(** X11.  At a hit of a ray with a non-zero direction on a sphere of
    non-zero radius, the hit point [P = O + closest_t * D] is at
    distance [|radius|] from the centre, and the normal
    [N = (P - center) / |P - center|] that [TraceRay] hands to
    [ComputeLighting] has length 1. *)
Lemma TraceRay_unit_normal :
  forall (sphs : list Sphere) (O D : Vec) (t_min t_max : num)
         (t : R) (sphere : Sphere),
    closest_hit sphs O D t_min t_max = (Fin t, Some sphere) ->
    dot D D <> 0 -> radius sphere <> 0 ->
    let P := add O (multiply D t) in
    let PC := subtract P (center sphere) in
    length PC = Rabs (radius sphere) /\ length (divide PC (length PC)) = 1.
Proof.
  intros sphs O D t_min t_max t sphere Hhit Ha Hr P PC.
  pose proof (closest_hit_inv sphs O D t_min t_max) as Hinv.
  rewrite Hhit in Hinv. simpl in Hinv.
  destruct Hinv as (i & Hi & Hn & _). apply seen_all in Hi.
  destruct Hi as (s & Hs & [Hroot _]).
  assert (s = sphere) as -> by congruence.
  pose proof (root_on_sphere O D sphere t Ha Hroot) as Hon.
  fold P PC in Hon.
  assert (Hlen : length PC = Rabs (radius sphere)).
  { unfold length. fold (dot PC PC). rewrite Hon.
    fold (Rsqr (radius sphere)). apply sqrt_Rsqr_abs. }
  split; [exact Hlen|]. apply divide_by_length_unit_aux.
  rewrite Hlen. now apply Rabs_no_R0.
Qed.

Lemma TraceRay_unit_normal_witness :
  let red := mkSphere (mkVec 0 (-1) 3) 1 (mkColor 255 0 0) 500 in
  let P := add O (multiply (mkVec 0 0 1) 3) in
  let PC := subtract P (center red) in
  length PC = Rabs (radius red) /\ length (divide PC (length PC)) = 1.
Proof.
  intros red.
  apply (TraceRay_unit_normal (spheres scene) O (mkVec 0 0 1) (Fin 1)
           Infinity 3 red closest_hit_scene_center).
  - unfold dot. simpl. lra.
  - simpl. lra.
Defined.

(** X12.  With a single ambient light of intensity [k] the lit
    [TraceRay] returns, at every hit, the colour the unlit [TraceRay]
    returns with each channel multiplied by [k]; for [k = 1] the two
    programs return the same colour at a hit. *)
Lemma TraceRay_ambient_is_unlit :
  forall (sphs : list Sphere) (k : R) (O D : Vec) (t_min t_max : num),
    snd (closest_hit sphs O D t_min t_max) <> None ->
    let flat := Unlit.TraceRay sphs O D t_min t_max in
    TraceRay {| spheres := sphs; lights := [ambient k] |} O D t_min t_max
    = {| r := r flat * k; g := g flat * k; b := b flat * k |} /\
    (k = 1 ->
     TraceRay {| spheres := sphs; lights := [ambient k] |} O D t_min t_max
     = flat).
Proof.
  intros sphs k O D t_min t_max Hhit flat. unfold flat.
  unfold TraceRay, Unlit.TraceRay. cbn [spheres].
  destruct (closest_hit sphs O D t_min t_max) as [ct [sphere|]];
    [|simpl in Hhit; congruence].
  cbv zeta.
  assert (Hk : (if Req_dec_T
                     (length (subtract (add O (multiply D (num_val ct)))
                                (center sphere))) 0
                then ComputeLighting_NaN_normal
                       {| spheres := sphs; lights := [ambient k] |}
                else ComputeLighting
                       {| spheres := sphs; lights := [ambient k] |}
                       (add O (multiply D (num_val ct)))
                       (divide (subtract (add O (multiply D (num_val ct)))
                                  (center sphere))
                          (length (subtract (add O (multiply D (num_val ct)))
                                     (center sphere))))
                       (multiply D (-1)) (specular sphere)) = k).
  { destruct (Req_dec_T _ 0);
      unfold ComputeLighting, ComputeLighting_NaN_normal; simpl; ring. }
  rewrite Hk. split.
  - reflexivity.
  - intros ->. destruct (color sphere) as [cr cg cb]. simpl.
    f_equal; ring.
Qed.

Lemma TraceRay_ambient_is_unlit_witness :
  let ball := mkSphere (mkVec 0 0 3) 1 (mkColor 255 0 0) (-1) in
  let flat := Unlit.TraceRay [ball] O (mkVec 0 0 1) (Fin 1) Infinity in
  TraceRay {| spheres := [ball]; lights := [ambient 1] |}
    O (mkVec 0 0 1) (Fin 1) Infinity
  = {| r := r flat * 1; g := g flat * 1; b := b flat * 1 |} /\
  (1 = 1 ->
   TraceRay {| spheres := [ball]; lights := [ambient 1] |}
     O (mkVec 0 0 1) (Fin 1) Infinity
   = flat).
Proof.
  intros ball.
  apply (TraceRay_ambient_is_unlit [ball] 1 O (mkVec 0 0 1) (Fin 1) Infinity).
  unfold closest_hit, fold_left, closest_step, ball.
  rewrite IntersectRaySphere_ahead. eval_try_root. discriminate.
Defined.

(** ** More about [ComputeLighting] *)

Lemma lighting_sum_app P N V s : forall l1 l2,
  lighting_sum (l1 ++ l2) P N V s
  = lighting_sum l1 P N V s + lighting_sum l2 P N V s.
Proof.
  induction l1 as [|light rest IH]; intros l2; simpl.
  - ring.
  - rewrite IH. ring.
Qed.

(** X13.  The lighting is additive over the list of lights and does
    not depend on their order: for two lists put end to end it is the
    sum of the two lightings, and a permutation of the lights gives
    the same number. *)
Lemma ComputeLighting_additive :
  forall (sphs : list Sphere) (l1 l2 ls ls' : list Light)
         (P N V : Vec) (s : R),
    ComputeLighting (mkScene sphs (l1 ++ l2)) P N V s
    = ComputeLighting (mkScene sphs l1) P N V s
      + ComputeLighting (mkScene sphs l2) P N V s /\
    (Permutation ls ls' ->
     ComputeLighting (mkScene sphs ls) P N V s
     = ComputeLighting (mkScene sphs ls') P N V s).
Proof.
  intros sphs l1 l2 ls ls' P N V s. unfold ComputeLighting. cbn [lights].
  rewrite !lighting_fold, lighting_sum_app. split; [ring|].
  intros Hperm. f_equal.
  induction Hperm; simpl; try lra.
Qed.

(** For a positive dot product the quotient by the two lengths, a
    cosine, is at most 1. *)
Lemma cosine_le_1 (u w : Vec) :
  0 < dot u w -> dot u w / (length u * length w) <= 1.
Proof.
  intros H.
  assert (Hden : 0 < length u * length w).
  { apply Rmult_lt_0_compat.
    - apply (length_pos u w). lra.
    - apply (length_pos w u). unfold dot in *. lra. }
  apply Rmult_le_reg_r with (length u * length w); [assumption|].
  unfold Rdiv. rewrite Rmult_assoc, Rinv_l, Rmult_1_r, Rmult_1_l by lra.
  apply Rsqr_incr_0_var; [|lra].
  unfold Rsqr.
  replace (length u * length w * (length u * length w))
    with ((length u * length u) * (length w * length w)) by ring.
  rewrite !length_sqr. apply dot_sqr_le.
Qed.

Lemma Math_pow_le_1 (base s : R) :
  0 < base <= 1 -> 0 <= s -> Math_pow base s <= 1.
Proof.
  intros [Hb0 Hb1] Hs. unfold Math_pow, Rpower.
  assert (Hln : ln base <= 0).
  { destruct Hb1 as [Hlt | ->]; [|rewrite ln_1; lra].
    rewrite <- ln_1. apply Rlt_le, ln_increasing; assumption. }
  assert (Hx : s * ln base <= 0) by nra.
  rewrite <- exp_0. destruct Hx as [Hlt | ->]; [|lra].
  apply Rlt_le, exp_increasing. assumption.
Qed.

Lemma diffuse_term_le N k L : 0 <= k -> diffuse_term N k L <= k.
Proof.
  intros Hk. unfold diffuse_term. destruct (Rlt_dec 0 (dot N L)); [|lra].
  replace (k * dot N L / (length N * length L))
    with (k * (dot N L / (length N * length L))) by (unfold Rdiv; ring).
  pose proof (cosine_le_1 N L r0). nra.
Qed.

Lemma specular_term_le N V s k L :
  0 <= k -> s = -1 \/ 0 <= s ->
  specular_term N V s k L <= (if Req_dec_T s (-1) then 0 else k).
Proof.
  intros Hk Hs. unfold specular_term.
  destruct (Req_dec_T s (-1)) as [Heq | Hne]; [lra|].
  destruct Hs as [Hs | Hs]; [contradiction|].
  destruct (Rlt_dec 0 (dot (reflect N L) V)) as [Hpos | _]; [|lra].
  pose proof (cosine_positive _ _ Hpos) as H0.
  pose proof (cosine_le_1 _ _ Hpos) as H1.
  pose proof (Math_pow_le_1 _ s (conj H0 H1) Hs). nra.
Qed.

Lemma light_term_le P N V s light :
  0 <= intensity light -> s = -1 \/ 0 <= s ->
  light_term P N V s light
  <= (if Req_dec_T s (-1) then 1 else 2) * intensity light.
Proof.
  intros Hk Hs.
  destruct light as [k | k pos | k dir]; simpl in *.
  - destruct (Req_dec_T s (-1)); lra.
  - pose proof (diffuse_term_le N k (subtract pos P) Hk).
    pose proof (specular_term_le N V s k (subtract pos P) Hk Hs).
    destruct (Req_dec_T s (-1)); lra.
  - pose proof (diffuse_term_le N k dir Hk).
    pose proof (specular_term_le N V s k dir Hk Hs).
    destruct (Req_dec_T s (-1)); lra.
Qed.

(** X14.  With non-negative intensities the lighting is bounded by the
    lights' total intensity: at most the sum of the intensities on a
    surface without specular reflection ([s = -1]), and at most twice
    that sum for a specular exponent [s >= 0]. *)
Lemma ComputeLighting_upper_bound :
  forall (scene : Scene) (P N V : Vec) (s : R),
    Forall (fun light => 0 <= intensity light) (lights scene) ->
    (s = -1 ->
     ComputeLighting scene P N V s <= total_intensity (lights scene)) /\
    (0 <= s ->
     ComputeLighting scene P N V s <= 2 * total_intensity (lights scene)).
Proof.
  intros scene P N V s Hall. unfold ComputeLighting.
  rewrite lighting_fold, Rplus_0_l.
  assert (Hgen : s = -1 \/ 0 <= s ->
                 lighting_sum (lights scene) P N V s
                 <= (if Req_dec_T s (-1) then 1 else 2)
                    * total_intensity (lights scene)).
  { intros Hs. induction Hall as [|light rest Hk _ IH]; simpl.
    - lra.
    - pose proof (light_term_le P N V s light Hk Hs). lra. }
  split; intros Hs.
  - specialize (Hgen (or_introl Hs)).
    destruct (Req_dec_T s (-1)); [lra | contradiction].
  - specialize (Hgen (or_intror Hs)).
    destruct (Req_dec_T s (-1)); lra.
Qed.

(** In the scene the intensities add up to 1. *)
Lemma ComputeLighting_upper_bound_witness :
  (500 = -1 ->
   ComputeLighting scene (mkVec 0 0 3) (mkVec 0 1 0) (mkVec 0 0 (-1)) 500
   <= total_intensity (lights scene)) /\
  (0 <= 500 ->
   ComputeLighting scene (mkVec 0 0 3) (mkVec 0 1 0) (mkVec 0 0 (-1)) 500
   <= 2 * total_intensity (lights scene)).
Proof.
  apply ComputeLighting_upper_bound. simpl.
  repeat constructor; simpl; lra.
Defined.

Lemma length_multiply_pos (v : Vec) (c : R) :
  0 < c -> length (multiply v c) = c * length v.
Proof. intros Hc. rewrite length_multiply, Rabs_right; lra. Qed.

Lemma dot_multiply_r (u v : Vec) (c : R) :
  dot u (multiply v c) = c * dot u v.
Proof. unfold dot, multiply. simpl. ring. Qed.

(** The quotient of a dot product by the two lengths does not change
    when the second vector is lengthened. *)
Lemma cosine_scale_r (u v : Vec) (c : R) :
  0 < c -> 0 < dot u v ->
  dot u (multiply v c) / (length u * length (multiply v c))
  = dot u v / (length u * length v).
Proof.
  intros Hc Hpos.
  assert (0 < length u) by (apply (length_pos u v); lra).
  assert (0 < length v) by (apply (length_pos v u); unfold dot in *; lra).
  rewrite dot_multiply_r, length_multiply_pos by assumption.
  field. lra.
Qed.

Lemma shade_view_scale N V s i k L (c : R) :
  0 < c -> shade N (multiply V c) s i k L = shade N V s i k L.
Proof.
  intros Hc. unfold shade. cbv zeta.
  destruct (Req_dec_T s (-1)); [reflexivity|].
  set (Rv := subtract (multiply N (2 * dot N L)) L).
  rewrite dot_multiply_r.
  destruct (Rlt_dec 0 (c * dot Rv V)) as [H1 | H1];
    destruct (Rlt_dec 0 (dot Rv V)) as [H2 | H2]; try nra.
  rewrite <- (dot_multiply_r Rv V c), cosine_scale_r by assumption.
  reflexivity.
Qed.

(** X15.  The lighting does not depend on the length of the view
    vector: replacing [V] by [c * V] with [c > 0] gives the same
    number, which is why [TraceRay] can pass [V = -D] without
    normalizing it. *)
Lemma ComputeLighting_view_scale :
  forall (scene : Scene) (P N V : Vec) (s c : R),
    0 < c ->
    ComputeLighting scene P N (multiply V c) s
    = ComputeLighting scene P N V s.
Proof.
  intros scene P N V s c Hc. unfold ComputeLighting.
  generalize 0. induction (lights scene) as [|light rest IH]; intros i.
  - reflexivity.
  - simpl. rewrite IH. f_equal.
    destruct light; simpl; auto using shade_view_scale.
Qed.

Lemma ComputeLighting_view_scale_witness :
  ComputeLighting scene (mkVec 0 0 3) (mkVec 0 1 0)
    (multiply (mkVec 0 0 (-1)) 2) 500
  = ComputeLighting scene (mkVec 0 0 3) (mkVec 0 1 0) (mkVec 0 0 (-1)) 500.
Proof.
  apply ComputeLighting_view_scale. lra.
Defined.

Lemma shade_light_scale N V s i k L (c : R) :
  0 < c -> shade N V s i k (multiply L c) = shade N V s i k L.
Proof.
  intros Hc. unfold shade. cbv zeta.
  assert (HR : subtract (multiply N (2 * dot N (multiply L c)))
                        (multiply L c)
               = multiply (subtract (multiply N (2 * dot N L)) L) c).
  { rewrite dot_multiply_r. unfold subtract, multiply. simpl.
    f_equal; ring. }
  rewrite HR. set (Rv := subtract (multiply N (2 * dot N L)) L).
  assert (Hdiff :
    (if Rlt_dec 0 (dot N (multiply L c))
     then i + k * (dot N (multiply L c)
                   / (length N * length (multiply L c)))
     else i)
    = (if Rlt_dec 0 (dot N L)
       then i + k * (dot N L / (length N * length L))
       else i)).
  { rewrite dot_multiply_r.
    destruct (Rlt_dec 0 (c * dot N L)) as [H1 | H1];
      destruct (Rlt_dec 0 (dot N L)) as [H2 | H2]; try nra.
    rewrite <- (dot_multiply_r N L c), cosine_scale_r by assumption.
    reflexivity. }
  rewrite Hdiff.
  destruct (Req_dec_T s (-1)); [reflexivity|].
  assert (Hdot : dot (multiply Rv c) V = c * dot Rv V)
    by (unfold dot, multiply; simpl; ring).
  rewrite Hdot.
  destruct (Rlt_dec 0 (c * dot Rv V)) as [H1 | H1];
    destruct (Rlt_dec 0 (dot Rv V)) as [H2 | H2]; try nra.
  do 2 f_equal. f_equal.
  assert (0 < length Rv) by (apply (length_pos Rv V); lra).
  assert (0 < length V)
    by (apply (length_pos V Rv); unfold dot in *; lra).
  rewrite length_multiply_pos by assumption. field. lra.
Qed.

(** X16.  Only the direction of a directional light matters, not the
    length of its [direction] vector: lengthening it by [c > 0] leaves
    the lighting unchanged, wherever the light stands in the list. *)
Lemma ComputeLighting_direction_scale :
  forall (sphs : list Sphere) (pre post : list Light) (k : R)
         (direction : Vec) (c : R) (P N V : Vec) (s : R),
    0 < c ->
    ComputeLighting
      (mkScene sphs (pre ++ directional k (multiply direction c) :: post))
      P N V s
    = ComputeLighting
        (mkScene sphs (pre ++ directional k direction :: post)) P N V s.
Proof.
  intros sphs pre post k direction c P N V s Hc.
  unfold ComputeLighting. cbn [lights].
  rewrite !fold_left_app. simpl. f_equal. now apply shade_light_scale.
Qed.

Lemma ComputeLighting_direction_scale_witness :
  ComputeLighting
    (mkScene [] ([ambient (2 / 10)]
                   ++ directional (2 / 10) (multiply (mkVec 1 4 4) 3) :: []))
    (mkVec 0 0 3) (mkVec 0 1 0) (mkVec 0 0 (-1)) 500
  = ComputeLighting
      (mkScene [] ([ambient (2 / 10)]
                     ++ directional (2 / 10) (mkVec 1 4 4) :: []))
      (mkVec 0 0 3) (mkVec 0 1 0) (mkVec 0 0 (-1)) 500.
Proof.
  apply ComputeLighting_direction_scale. lra.
Defined.

(** ** More about the pixel buffer *)

Lemma ToUint8Clamp_range (v : R) : (0 <= ToUint8Clamp v <= 255)%Z.
Proof.
  unfold ToUint8Clamp.
  destruct (Rle_dec v 0) as [_ | H0]; [lia|].
  destruct (Rle_dec 255 v) as [_ | H255]; [lia|].
  destruct (base_Int_part v) as [Hlo Hhi].
  assert (Hf0 : (0 <= Int_part v)%Z).
  { apply Z.lt_pred_le. apply lt_IZR. unfold Z.pred.
    rewrite plus_IZR. simpl. lra. }
  assert (Hf1 : (Int_part v < 255)%Z) by (apply lt_IZR; lra).
  destruct (Rlt_dec (IZR (Int_part v) + 1 / 2) v); [lia|].
  destruct (Rlt_dec v (IZR (Int_part v) + 1 / 2)); [lia|].
  destruct (Z.even (Int_part v)); lia.
Qed.

Lemma ToUint8Clamp_integer (n : Z) :
  (0 <= n <= 255)%Z -> ToUint8Clamp (IZR n) = n.
Proof.
  intros [H0 H255]. unfold ToUint8Clamp.
  apply IZR_le in H0, H255.
  destruct (Rle_dec (IZR n) 0) as [Hz | _].
  - apply eq_IZR. lra.
  - destruct (Rle_dec 255 (IZR n)) as [Hm | _].
    + apply eq_IZR. lra.
    + rewrite Int_part_IZR.
      destruct (Rlt_dec (IZR n + 1 / 2) (IZR n)); [lra|].
      destruct (Rlt_dec (IZR n) (IZR n + 1 / 2)); [reflexivity | lra].
Qed.

Lemma set_nth_Forall (Q : Z -> Prop) v : forall data n,
  Q v -> Forall Q data -> Forall Q (set_nth n v data).
Proof.
  induction data as [|u rest IH]; intros [|n] Hv Hall; simpl; auto;
    inversion Hall; subst; constructor; auto.
Qed.

Lemma store_bytes index v data :
  Forall (fun u => (0 <= u <= 255)%Z) data ->
  Forall (fun u => (0 <= u <= 255)%Z) (store index v data).
Proof.
  intros Hall. unfold store.
  destruct (Req_dec_T _ index); [|assumption].
  destruct (_ && _)%bool; [|assumption].
  apply set_nth_Forall; [apply ToUint8Clamp_range | assumption].
Qed.

(** X17.  Whatever the coordinates and the colour (in or out of the
    canvas, integer or not, channels of any size), [PutPixel] keeps
    the length of the pixel buffer and keeps every byte in the range
    0..255: a channel is clamped when it is stored. *)
Lemma PutPixel_keeps_buffer_shape :
  forall (Cw Ch x y : R) (color : Color) (data : Buffer),
    List.length (PutPixel Cw Ch x y color data) = List.length data /\
    (Forall (fun u => (0 <= u <= 255)%Z) data ->
     Forall (fun u => (0 <= u <= 255)%Z) (PutPixel Cw Ch x y color data)).
Proof.
  intros Cw Ch x y color data. unfold PutPixel. cbv zeta.
  destruct (_ || _ || _ || _)%bool.
  - split; auto.
  - split.
    + now rewrite !store_length.
    + intros Hall. now repeat apply store_bytes.
Qed.

(** The bytes of an in-range pixel after [write_raster], and the bytes
    that stay. *)
Lemma write_raster_pixel (W px py : Z) (color : Color) (data : Buffer) :
  (0 <= 4 * (px + py * W))%Z ->
  (4 * (px + py * W) + 3 < Z.of_nat (List.length data))%Z ->
  let out := write_raster (IZR W) (IZR px) (IZR py) color data in
  let base := Z.to_nat (4 * (px + py * W)) in
  List.length out = List.length data /\
  pixel_bytes W out px py = color_bytes color /\
  (forall j, (j < base \/ base + 3 < j)%nat ->
             nth_error out j = nth_error data j).
Proof.
  intros Hlo Hhi out base.
  assert (Hidx : forall k : Z,
             (IZR px + IZR py * IZR W) * 4 + IZR k
             = IZR (4 * (px + py * W) + k)).
  { intros k. rewrite plus_IZR, !mult_IZR, plus_IZR, mult_IZR. lra. }
  unfold out, write_raster. cbv zeta.
  rewrite (Hidx 0%Z), (Hidx 1%Z), (Hidx 2%Z), (Hidx 3%Z).
  rewrite !store_index by (rewrite ?store_length, ?set_nth_length; lia).
  rewrite ToUint8Clamp_255.
  replace (Z.to_nat (4 * (px + py * W) + 0)) with base by (unfold base; lia).
  replace (Z.to_nat (4 * (px + py * W) + 1)) with (base + 1)%nat
    by (unfold base; lia).
  replace (Z.to_nat (4 * (px + py * W) + 2)) with (base + 2)%nat
    by (unfold base; lia).
  replace (Z.to_nat (4 * (px + py * W) + 3)) with (base + 3)%nat
    by (unfold base; lia).
  assert (Hb : (base + 3 < List.length data)%nat) by (unfold base; lia).
  split; [now rewrite !set_nth_length|]. split.
  - unfold pixel_bytes, color_bytes. fold base.
    repeat f_equal.
    + rewrite !set_nth_other by lia. apply set_nth_same. lia.
    + rewrite !set_nth_other by lia. apply set_nth_same.
      rewrite set_nth_length. lia.
    + rewrite set_nth_other by lia. apply set_nth_same.
      rewrite !set_nth_length. lia.
    + apply set_nth_same. rewrite !set_nth_length. lia.
  - intros j Hj. rewrite !set_nth_other by lia. reflexivity.
Qed.

Lemma raster_index_bounds (W H px py : Z) :
  (0 <= px < W)%Z -> (0 <= py < H)%Z ->
  (0 <= 4 * (px + py * W) /\ 4 * (px + py * W) + 3 < 4 * W * H)%Z.
Proof. intros Hx Hy. split; nia. Qed.

Lemma raster_index_apart (W px py qx qy : Z) :
  (0 <= px < W)%Z -> (0 <= qx < W)%Z -> (0 <= py)%Z -> (0 <= qy)%Z ->
  (px, py) <> (qx, qy) ->
  (4 * (px + py * W) + 3 < 4 * (qx + qy * W) \/
   4 * (qx + qy * W) + 3 < 4 * (px + py * W))%Z.
Proof.
  intros Hp Hq Hpy Hqy Hne.
  destruct (Z.lt_trichotomy py qy) as [Hlt | [Heq | Hgt]].
  - left. nia.
  - subst qy. assert (px <> qx) by congruence. lia.
  - right. nia.
Qed.

(** X18.  Writing then reading a pixel: on a [W] x [H] canvas with a
    full buffer, after [PutPixel] at the centred coordinate of the
    raster pixel [(px, py)] with a colour whose channels are integers
    in 0..255, the four bytes of that pixel are exactly
    [r, g, b, 255], and the bytes of every other pixel are as
    before. *)
Lemma PutPixel_read_back :
  forall (W H px py cr cg cb : Z) (data : Buffer),
    (0 <= px < W)%Z -> (0 <= py < H)%Z ->
    Z.of_nat (List.length data) = (4 * W * H)%Z ->
    (0 <= cr <= 255)%Z -> (0 <= cg <= 255)%Z -> (0 <= cb <= 255)%Z ->
    let out := PutPixel (IZR W) (IZR H)
                 (IZR px - IZR W / 2) (IZR H / 2 - IZR py)
                 (mkColor (IZR cr) (IZR cg) (IZR cb)) data in
    pixel_bytes W out px py = [Some cr; Some cg; Some cb; Some 255%Z] /\
    (forall qx qy,
        (0 <= qx < W)%Z -> (0 <= qy < H)%Z -> (qx, qy) <> (px, py) ->
        pixel_bytes W out qx qy = pixel_bytes W data qx qy).
Proof.
  intros W H px py cr cg cb data Hpx Hpy Hlen Hr Hg Hb out.
  destruct (raster_index_bounds W H px py Hpx Hpy) as [Hlo Hhi].
  assert (Hin : inside_raster (IZR W) (IZR H)
                  (IZR W / 2 + (IZR px - IZR W / 2))
                  (IZR H / 2 - (IZR H / 2 - IZR py))).
  { unfold inside_raster.
    replace (IZR W / 2 + (IZR px - IZR W / 2)) with (IZR px) by lra.
    replace (IZR H / 2 - (IZR H / 2 - IZR py)) with (IZR py) by lra.
    destruct Hpx as [Hp0 HpW], Hpy as [Hq0 HqH].
    apply IZR_le in Hp0, Hq0. apply IZR_lt in HpW, HqH. lra. }
  unfold out. rewrite (PutPixel_inside _ _ _ _ _ _ Hin).
  replace (IZR W / 2 + (IZR px - IZR W / 2)) with (IZR px) by lra.
  replace (IZR H / 2 - (IZR H / 2 - IZR py)) with (IZR py) by lra.
  destruct (write_raster_pixel W px py
              (mkColor (IZR cr) (IZR cg) (IZR cb)) data Hlo
              ltac:(lia)) as (_ & Hpix & Hframe).
  split.
  - rewrite Hpix. unfold color_bytes. simpl.
    now rewrite !ToUint8Clamp_integer by assumption.
  - intros qx qy Hqx Hqy Hne.
    destruct (raster_index_bounds W H qx qy Hqx Hqy) as [Hqlo Hqhi].
    pose proof (raster_index_apart W qx qy px py Hqx Hpx
                  ltac:(lia) ltac:(lia) Hne) as Hapart.
    unfold pixel_bytes. cbv zeta.
    rewrite !Hframe by lia. reflexivity.
Qed.

Lemma PutPixel_read_back_witness :
  let out := PutPixel 2 2 (1 - 2 / 2) (2 / 2 - 1) (mkColor 255 0 7)
               (repeat 9%Z 16) in
  pixel_bytes 2 out 1 1 = [Some 255%Z; Some 0%Z; Some 7%Z; Some 255%Z] /\
  (forall qx qy,
      (0 <= qx < 2)%Z -> (0 <= qy < 2)%Z -> (qx, qy) <> (1%Z, 1%Z) ->
      pixel_bytes 2 out qx qy = pixel_bytes 2 (repeat 9%Z 16) qx qy).
Proof.
  apply (PutPixel_read_back 2 2 1 1 255 0 7 (repeat 9%Z 16));
    simpl; lia.
Defined.

Lemma PutPixel_out_of_bounds_aux Cw Ch x y color data :
  ~ inside_raster Cw Ch (Cw / 2 + x) (Ch / 2 - y) ->
  PutPixel Cw Ch x y color data = data.
Proof.
  intros Hout. unfold PutPixel. cbv zeta.
  destruct (_ || _ || _ || _)%bool eqn:E; [reflexivity|].
  apply PutPixel_guard in E. contradiction.
Qed.

(** ** The render loop *)

(** A loop whose body cannot fail runs its body on
    [start + m], [start + m + 1], ... and stops at the bound, given
    fuel for one more test than iterations. *)
Lemma for_loop_fold {St : Type} (start : R) (body : R -> St -> option St)
  (f : R -> St -> St) :
  (forall v st, body v st = Some (f v st)) ->
  forall n m fuel st,
    (n < fuel)%nat ->
    for_loop fuel (start + INR m) (start + INR (m + n)) body st
    = Some (fold_left (fun st k => f (start + INR k) st) (seq m n) st).
Proof.
  intros Hbody. induction n as [|n IH]; intros m fuel st Hfuel;
    destruct fuel as [|fuel]; try lia; simpl.
  - rewrite Nat.add_0_r. destruct (Rlt_dec _ _); [lra | reflexivity].
  - destruct (Rlt_dec (start + INR m) (start + INR (m + S n))) as [_ | Hn].
    + rewrite Hbody.
      replace (start + INR m + 1) with (start + INR (S m))
        by (rewrite S_INR; lra).
      replace (m + S n)%nat with (S m + n)%nat by lia.
      apply IH. lia.
    + exfalso. apply Hn. rewrite plus_INR, S_INR.
      pose proof (pos_INR n). lra.
Qed.

Lemma painted_ext W H F (T T' : Z -> Z -> Prop) data out :
  (forall px py, T px py <-> T' px py) ->
  painted W H F T data out -> painted W H F T' data out.
Proof.
  intros HT [Hlen Hpix]. split; [assumption|].
  intros px py Hx Hy. destruct (Hpix px py Hx Hy) as [Hin Hout].
  split; intros HT'; [apply Hin | apply Hout]; rewrite HT; assumption.
Qed.

Lemma painted_write W H F (T : Z -> Z -> Prop) data out qx qy :
  Z.of_nat (List.length data) = (4 * W * H)%Z ->
  (0 <= qx < W)%Z -> (0 <= qy < H)%Z ->
  painted W H F T data out ->
  painted W H F (fun px py => T px py \/ (px = qx /\ py = qy)) data
    (write_raster (IZR W) (IZR qx) (IZR qy) (F qx qy) out).
Proof.
  intros Hlen Hqx Hqy [Hl Hpix].
  destruct (raster_index_bounds W H qx qy Hqx Hqy) as [Hlo Hhi].
  destruct (write_raster_pixel W qx qy (F qx qy) out Hlo
              ltac:(rewrite Hl; lia)) as (Hl' & Hq & Hframe).
  split; [congruence|].
  intros px py Hx Hy.
  destruct (Z.eq_dec px qx) as [-> | Hne];
    [destruct (Z.eq_dec py qy) as [-> | Hne]|].
  - split; [intros _; exact Hq | intros Hn; exfalso; apply Hn; auto].
  - assert (Hsame : pixel_bytes W
                      (write_raster (IZR W) (IZR qx) (IZR qy) (F qx qy) out)
                      qx py
                    = pixel_bytes W out qx py).
    { pose proof (raster_index_apart W qx py qx qy Hx Hqx
                    ltac:(lia) ltac:(lia) ltac:(congruence)).
      destruct (raster_index_bounds W H qx py Hx Hy).
      unfold pixel_bytes. cbv zeta. rewrite !Hframe by lia. reflexivity. }
    rewrite Hsame. destruct (Hpix qx py Hx Hy) as [Hin Hout].
    split; [intros [HT | [_ Heq]]; [auto | contradiction]|].
    intros Hn. apply Hout. tauto.
  - assert (Hsame : pixel_bytes W
                      (write_raster (IZR W) (IZR qx) (IZR qy) (F qx qy) out)
                      px py
                    = pixel_bytes W out px py).
    { pose proof (raster_index_apart W px py qx qy Hx Hqx
                    ltac:(lia) ltac:(lia) ltac:(congruence)).
      destruct (raster_index_bounds W H px py Hx Hy).
      unfold pixel_bytes. cbv zeta. rewrite !Hframe by lia. reflexivity. }
    rewrite Hsame. destruct (Hpix px py Hx Hy) as [Hin Hout].
    split; [intros [HT | [Heq _]]; [auto | contradiction]|].
    intros Hn. apply Hout. tauto.
Qed.

(** One iteration of the inner loop, in raster terms: the iteration
    [l = 0] of a column falls on the row [H], outside the canvas, and
    is dropped; the iteration [l >= 1] writes the pixel of row
    [H - l]. *)
Lemma render_body_raster (trace : Vec -> Color) (W H : Z) (k l : nat)
  (data : Buffer) :
  (Z.of_nat k < W)%Z -> (Z.of_nat l < H)%Z ->
  PutPixel (IZR W) (IZR H) (- IZR W / 2 + INR k) (- IZR H / 2 + INR l)
    (trace (CanvasToViewport (IZR W) (IZR H)
              (- IZR W / 2 + INR k) (- IZR H / 2 + INR l))) data
  = match l with
    | 0%nat => data
    | _ => write_raster (IZR W) (IZR (Z.of_nat k)) (IZR (H - Z.of_nat l))
             (trace (pixel_direction W H (Z.of_nat k) (H - Z.of_nat l)))
             data
    end.
Proof.
  intros Hk Hl.
  assert (HkR : INR k = IZR (Z.of_nat k)) by apply INR_IZR_INZ.
  assert (HlR : INR l = IZR (Z.of_nat l)) by apply INR_IZR_INZ.
  assert (Hk0 : 0 <= INR k) by apply pos_INR.
  assert (HkW : INR k < IZR W) by (rewrite HkR; now apply IZR_lt).
  assert (HlH : INR l < IZR H) by (rewrite HlR; now apply IZR_lt).
  destruct l as [|l'].
  - apply PutPixel_out_of_bounds_aux. unfold inside_raster. simpl. lra.
  - set (l := S l') in *.
    assert (Hl1 : 1 <= INR l) by (unfold l; rewrite S_INR;
                                  pose proof (pos_INR l'); lra).
    rewrite PutPixel_inside by (unfold inside_raster; lra).
    unfold pixel_direction. rewrite minus_IZR, <- HkR, <- HlR.
    replace (IZR W / 2 + (- IZR W / 2 + INR k)) with (INR k) by lra.
    replace (IZR H / 2 - (- IZR H / 2 + INR l)) with (IZR H - INR l) by lra.
    replace (IZR H - (IZR H - INR l)) with (INR l) by lra.
    reflexivity.
Qed.

Lemma for_loop_centered {St : Type} (C : R) (n : nat)
  (body : R -> St -> option St) (f : R -> St -> St) fuel st :
  C = INR n -> (n < fuel)%nat ->
  (forall v st, body v st = Some (f v st)) ->
  for_loop fuel (- C / 2) (C / 2) body st
  = Some (fold_left (fun st k => f (- C / 2 + INR k) st) (seq 0 n) st).
Proof.
  intros HC Hfuel Hbody.
  pose proof (for_loop_fold (- C / 2) body f Hbody n 0 fuel st Hfuel) as H.
  replace (- C / 2 + INR 0) with (- C / 2) in H by (simpl; lra).
  replace (- C / 2 + INR (0 + n)) with (C / 2) in H by (simpl; lra).
  exact H.
Qed.

(** The inner loop on column [k]: after the iterations [l < n] the
    rows [H - n + 1 .. H - 1] of the column are painted. *)
Lemma render_column_painted (trace : Vec -> Color) (W H : Z) (k : nat)
  (T : Z -> Z -> Prop) (data : Buffer) :
  Z.of_nat (List.length data) = (4 * W * H)%Z ->
  (Z.of_nat k < W)%Z ->
  forall n out,
    (Z.of_nat n <= H)%Z ->
    painted W H (fun px py => trace (pixel_direction W H px py)) T data out ->
    painted W H (fun px py => trace (pixel_direction W H px py))
      (fun px py =>
         T px py \/ (px = Z.of_nat k /\ H - Z.of_nat n < py < H)%Z)
      data
      (fold_left
         (fun st l =>
            PutPixel (IZR W) (IZR H)
              (- IZR W / 2 + INR k) (- IZR H / 2 + INR l)
              (trace (CanvasToViewport (IZR W) (IZR H)
                        (- IZR W / 2 + INR k) (- IZR H / 2 + INR l))) st)
         (seq 0 n) out).
Proof.
  intros Hlen Hk. induction n as [|n IH]; intros out Hn Hp.
  - simpl. revert Hp. apply painted_ext. intros px py. split; [tauto|].
    intros [HT | [_ Hpy]]; [assumption | lia].
  - rewrite seq_S, fold_left_app. simpl.
    specialize (IH out ltac:(lia) Hp).
    rewrite render_body_raster by lia.
    destruct n as [|n'].
    + revert IH. apply painted_ext. intros px py.
      split; (intros [HT | [Hx Hpy]]; [left; assumption | lia]).
    + set (n := S n') in *.
      apply (painted_write W H _ _ data _ (Z.of_nat k) (H - Z.of_nat n)
               Hlen ltac:(lia) ltac:(lia)) in IH.
      revert IH. apply painted_ext. intros px py. split.
      * intros [[HT | [Hx Hpy]] | [Hx Hpy]]; [tauto | right; lia | right; lia].
      * intros [HT | [Hx Hpy]]; [tauto|].
        destruct (Z.eq_dec py (H - Z.of_nat n)); [right; lia|].
        left. right. lia.
Qed.

(** The whole sweep: every pixel of the rows [1 .. H - 1] is painted
    with the colour traced through it, the row 0 is as it was. *)
Lemma render_with_painted (trace : Vec -> Color) (W H : Z) (fuel : nat)
  (data : Buffer) :
  (0 <= W)%Z -> (0 <= H)%Z ->
  Z.of_nat (List.length data) = (4 * W * H)%Z ->
  (Z.to_nat W < fuel)%nat -> (Z.to_nat H < fuel)%nat ->
  exists out,
    render_with trace fuel (IZR W) (IZR H) data = Some out /\
    painted W H (fun px py => trace (pixel_direction W H px py))
      (fun px py => (0 < py)%Z) data out.
Proof.
  intros HW HH Hlen HfW HfH.
  assert (HWn : IZR W = INR (Z.to_nat W))
    by (rewrite INR_IZR_INZ, Z2Nat.id; auto).
  assert (HHn : IZR H = INR (Z.to_nat H))
    by (rewrite INR_IZR_INZ, Z2Nat.id; auto).
  set (F := fun px py => trace (pixel_direction W H px py)).
  set (put := fun (x y : R) (st : Buffer) =>
                PutPixel (IZR W) (IZR H) x y
                  (trace (CanvasToViewport (IZR W) (IZR H) x y)) st).
  set (column := fun (x : R) (st : Buffer) =>
                   fold_left (fun st l => put x (- IZR H / 2 + INR l) st)
                     (seq 0 (Z.to_nat H)) st).
  assert (Hrun : render_with trace fuel (IZR W) (IZR H) data
                 = Some (fold_left
                           (fun st k => column (- IZR W / 2 + INR k) st)
                           (seq 0 (Z.to_nat W)) data)).
  { unfold render_with.
    apply (for_loop_centered (IZR W) (Z.to_nat W) _ column fuel data HWn HfW).
    intros x st.
    apply (for_loop_centered (IZR H) (Z.to_nat H) _ (put x) fuel st HHn HfH).
    reflexivity. }
  eexists. split; [exact Hrun|].
  assert (Hcols : forall n,
             (n <= Z.to_nat W)%nat ->
             painted W H F (fun px py => (px < Z.of_nat n /\ 0 < py < H)%Z)
               data
               (fold_left (fun st k => column (- IZR W / 2 + INR k) st)
                  (seq 0 n) data)).
  { induction n as [|n IH]; intros Hn.
    - simpl. split; [reflexivity|]. intros px py Hx Hy.
      split; [lia | reflexivity].
    - rewrite seq_S, fold_left_app. simpl.
      specialize (IH ltac:(lia)). unfold column at 1, put.
      apply (render_column_painted trace W H n _ data Hlen ltac:(lia)
               (Z.to_nat H) _ ltac:(lia)) in IH.
      revert IH. apply painted_ext. intros px py. lia. }
  specialize (Hcols (Z.to_nat W) (le_n _)).
  destruct Hcols as [Hl Hpix]. split; [assumption|].
  intros px py Hx Hy. destruct (Hpix px py Hx Hy) as [Hin Hout].
  split; intros HT; [apply Hin | apply Hout]; lia.
Qed.

(** X19.  On a [W] x [H] canvas with a full RGBA buffer, [render]
    ends (given fuel for [max(W, H) + 1] loop tests) after writing,
    into every pixel [(px, py)] of the raster rows [1 .. H - 1], the
    clamped colour [TraceRay] returns for the ray from the camera
    through that pixel, with alpha 255; the same holds for the unlit
    program. *)
Theorem render_paints_rows :
  forall (scene : Scene) (W H : Z) (fuel : nat) (data : Buffer),
    (0 <= W)%Z -> (0 <= H)%Z ->
    Z.of_nat (List.length data) = (4 * W * H)%Z ->
    (Z.to_nat W < fuel)%nat -> (Z.to_nat H < fuel)%nat ->
    (exists out,
        render scene fuel (IZR W) (IZR H) data = Some out /\
        List.length out = List.length data /\
        forall px py,
          (0 <= px < W)%Z -> (1 <= py < H)%Z ->
          pixel_bytes W out px py
          = color_bytes (TraceRay scene O (pixel_direction W H px py)
                           (Fin 1) Infinity)) /\
    (exists out,
        render_unlit (spheres scene) fuel (IZR W) (IZR H) data = Some out /\
        List.length out = List.length data /\
        forall px py,
          (0 <= px < W)%Z -> (1 <= py < H)%Z ->
          pixel_bytes W out px py
          = color_bytes (Unlit.TraceRay (spheres scene) O
                           (pixel_direction W H px py) (Fin 1) Infinity)).
Proof.
  intros scene W H fuel data HW HH Hlen HfW HfH. split.
  - destruct (render_with_painted
                (fun D => TraceRay scene O D (Fin 1) Infinity)
                W H fuel data HW HH Hlen HfW HfH) as (out & Hrun & Hl & Hpix).
    exists out. split; [exact Hrun|]. split; [exact Hl|].
    intros px py Hx Hy. apply (Hpix px py Hx ltac:(lia)). lia.
  - destruct (render_with_painted
                (fun D => Unlit.TraceRay (spheres scene) O D (Fin 1) Infinity)
                W H fuel data HW HH Hlen HfW HfH) as (out & Hrun & Hl & Hpix).
    exists out. split; [exact Hrun|]. split; [exact Hl|].
    intros px py Hx Hy. apply (Hpix px py Hx ltac:(lia)). lia.
Qed.

(** X20.  [render] never writes the top row of the canvas: the loop
    runs [y] from [-Ch / 2] to [Ch / 2 - 1], so the raster rows it
    addresses are [Ch .. 1]; the row [Ch] is outside the canvas and
    dropped by [PutPixel], and the row 0 keeps the bytes it had. *)
Theorem render_skips_top_row :
  forall (scene : Scene) (W H : Z) (fuel : nat) (data : Buffer),
    (0 <= W)%Z -> (0 <= H)%Z ->
    Z.of_nat (List.length data) = (4 * W * H)%Z ->
    (Z.to_nat W < fuel)%nat -> (Z.to_nat H < fuel)%nat ->
    exists out,
      render scene fuel (IZR W) (IZR H) data = Some out /\
      forall px,
        (0 <= px < W)%Z -> (0 < H)%Z ->
        pixel_bytes W out px 0 = pixel_bytes W data px 0.
Proof.
  intros scene W H fuel data HW HH Hlen HfW HfH.
  destruct (render_with_painted
              (fun D => TraceRay scene O D (Fin 1) Infinity)
              W H fuel data HW HH Hlen HfW HfH) as (out & Hrun & Hl & Hpix).
  exists out. split; [exact Hrun|].
  intros px Hx Hpos. apply (Hpix px 0%Z Hx ltac:(lia)). lia.
Qed.

Lemma render_paints_rows_witness :
  (exists out,
      render scene 3 2 2 (repeat 0%Z 16) = Some out /\
      List.length out = List.length (repeat 0%Z 16) /\
      forall px py,
        (0 <= px < 2)%Z -> (1 <= py < 2)%Z ->
        pixel_bytes 2 out px py
        = color_bytes (TraceRay scene O (pixel_direction 2 2 px py)
                         (Fin 1) Infinity)) /\
  (exists out,
      render_unlit (spheres scene) 3 2 2 (repeat 0%Z 16) = Some out /\
      List.length out = List.length (repeat 0%Z 16) /\
      forall px py,
        (0 <= px < 2)%Z -> (1 <= py < 2)%Z ->
        pixel_bytes 2 out px py
        = color_bytes (Unlit.TraceRay (spheres scene) O
                         (pixel_direction 2 2 px py) (Fin 1) Infinity)).
Proof.
  apply (render_paints_rows scene 2 2 3 (repeat 0%Z 16)); simpl; lia.
Defined.

Lemma render_skips_top_row_witness :
  exists out,
    render scene 3 2 2 (repeat 0%Z 16) = Some out /\
    forall px,
      (0 <= px < 2)%Z -> (0 < 2)%Z ->
      pixel_bytes 2 out px 0 = pixel_bytes 2 (repeat 0%Z 16) px 0.
Proof.
  apply (render_skips_top_row scene 2 2 3 (repeat 0%Z 16)); simpl; lia.
Defined.

(** ** Edge cases of [TraceRay] and [ComputeLighting] *)

(** X21.  On a surface without specular reflection ([s = -1]) the
    lighting does not depend on the view vector at all. *)
Lemma ComputeLighting_matte_view_independent :
  forall (scene : Scene) (P N V V' : Vec),
    ComputeLighting scene P N V (-1) = ComputeLighting scene P N V' (-1).
Proof.
  intros scene P N V V'. unfold ComputeLighting.
  generalize 0. induction (lights scene) as [|light rest IH]; intros i.
  - reflexivity.
  - simpl. rewrite IH. f_equal.
    destruct light; simpl; unfold shade;
      destruct (Req_dec_T (-1) (-1)); try reflexivity; contradiction.
Qed.

Lemma light_term_scale P N V s c light :
  light_term P N V s (scale_intensity c light)
  = c * light_term P N V s light.
Proof.
  destruct light; simpl; unfold diffuse_term, specular_term;
    repeat match goal with
      | |- context [Rlt_dec ?u ?v] => destruct (Rlt_dec u v)
      | |- context [Req_dec_T ?u ?v] => destruct (Req_dec_T u v)
      end; unfold Rdiv; ring.
Qed.

(** X22.  The lighting is linear in the intensities: multiplying the
    intensity of every light by [c] multiplies the lighting by [c]. *)
Lemma ComputeLighting_intensity_linear :
  forall (sphs : list Sphere) (ls : list Light) (c : R)
         (P N V : Vec) (s : R),
    ComputeLighting (mkScene sphs (map (scale_intensity c) ls)) P N V s
    = c * ComputeLighting (mkScene sphs ls) P N V s.
Proof.
  intros sphs ls c P N V s. unfold ComputeLighting. cbn [lights].
  rewrite !lighting_fold, !Rplus_0_l.
  induction ls as [|light rest IH]; simpl.
  - ring.
  - rewrite IH, light_term_scale. ring.
Qed.

(** X23.  With an empty interval of ray parameters, [t_max < t_min],
    no sphere is selected and both programs return their background
    colour, whatever the scene. *)
Lemma TraceRay_empty_range :
  forall (scene : Scene) (O D : Vec) (t_min t_max : num),
    num_ltb t_max t_min = true ->
    closest_hit (spheres scene) O D t_min t_max = (Infinity, None) /\
    TraceRay scene O D t_min t_max = BACKGROUND_COLOR /\
    Unlit.TraceRay (spheres scene) O D t_min t_max = Unlit.BACKGROUND_COLOR.
Proof.
  intros scene O D t_min t_max Hlt.
  pose proof (closest_hit_least (spheres scene) O D t_min t_max) as H.
  unfold TraceRay, Unlit.TraceRay.
  destruct (closest_hit (spheres scene) O D t_min t_max) as [[t| | |] [s|]];
    try contradiction.
  - exfalso. destruct H as [(a & _ & _ & Hlo & Hhi) _].
    unfold num_geb in Hlo.
    destruct t_min as [lo| | |], t_max as [hi| | |]; simpl in *; try discriminate.
    apply num_leb_fin in Hlo, Hhi. apply num_ltb_fin in Hlt. lra.
  - repeat split.
Qed.

Lemma TraceRay_empty_range_witness :
  closest_hit (spheres scene) O (mkVec 0 0 1) (Fin 5) (Fin 1)
  = (Infinity, None) /\
  TraceRay scene O (mkVec 0 0 1) (Fin 5) (Fin 1) = BACKGROUND_COLOR /\
  Unlit.TraceRay (spheres scene) O (mkVec 0 0 1) (Fin 5) (Fin 1)
  = Unlit.BACKGROUND_COLOR.
Proof.
  apply TraceRay_empty_range. apply num_ltb_fin. lra.
Defined.

(** X24.  The unlit [TraceRay] never makes up a colour: it returns the
    background colour or the colour of a sphere of the scene, and the
    lit [TraceRay] the background colour or a sphere's colour with its
    three channels multiplied by one common factor. *)
Lemma TraceRay_colour_from_scene :
  forall (scene : Scene) (O D : Vec) (t_min t_max : num),
    (Unlit.TraceRay (spheres scene) O D t_min t_max = Unlit.BACKGROUND_COLOR
     \/ exists sphere,
          In sphere (spheres scene) /\
          Unlit.TraceRay (spheres scene) O D t_min t_max = color sphere) /\
    (TraceRay scene O D t_min t_max = BACKGROUND_COLOR
     \/ exists sphere lighting,
          In sphere (spheres scene) /\
          TraceRay scene O D t_min t_max
          = {| r := r (color sphere) * lighting;
               g := g (color sphere) * lighting;
               b := b (color sphere) * lighting |}).
Proof.
  intros scene O D t_min t_max.
  pose proof (closest_hit_inv (spheres scene) O D t_min t_max) as Hinv.
  unfold TraceRay, Unlit.TraceRay.
  destruct (closest_hit (spheres scene) O D t_min t_max) as [[t| | |] [s|]];
    simpl in Hinv; try contradiction.
  - destruct Hinv as (i & _ & Hn & _). apply nth_error_In in Hn.
    split; right; [exists s; auto|]. eexists. eexists. split; [exact Hn|].
    reflexivity.
  - split; left; reflexivity.
Qed.

(** X25.  Only the square of the radius enters the intersection: a
    sphere with radius [-radius] is intersected exactly like the
    sphere with radius [radius], and a sphere of radius 0 is hit only
    by rays through its centre. *)
Lemma IntersectRaySphere_radius_sign :
  forall (O D : Vec) (c : Vec) (radius : R) (col : Color) (s : R),
    IntersectRaySphere O D (mkSphere c (- radius) col s)
    = IntersectRaySphere O D (mkSphere c radius col s) /\
    (forall t, dot D D <> 0 ->
               is_root O D (mkSphere c 0 col s) t ->
               add O (multiply D t) = c).
Proof.
  intros O D c radius col s. split.
  - unfold IntersectRaySphere. simpl.
    replace (- radius * - radius) with (radius * radius) by ring.
    reflexivity.
  - intros t Ha Hroot.
    pose proof (root_on_sphere O D _ t Ha Hroot) as Hon. simpl in Hon.
    set (PC := subtract (add O (multiply D t)) c) in *.
    assert (Hx : x PC = 0 /\ y PC = 0 /\ z PC = 0).
    { unfold dot in Hon.
      pose proof (Rle_0_sqr (x PC)). pose proof (Rle_0_sqr (y PC)).
      pose proof (Rle_0_sqr (z PC)). unfold Rsqr in *.
      repeat split; nra. }
    destruct Hx as (Hx & Hy & Hz). unfold PC, subtract in Hx, Hy, Hz.
    simpl in Hx, Hy, Hz.
    destruct c as [cx cy cz]. simpl in *.
    unfold add, multiply. simpl. f_equal; lra.
Qed.

(** ** Which pixel [PutPixel] writes *)





(** ** Degenerate rays and spheres *)

(** The zero direction: every root is [NaN], no comparison passes, and
    both programs return their background colour. *)
Lemma TraceRay_zero_direction (scene : Scene) (O : Vec) (t_min t_max : num) :
  closest_hit (spheres scene) O (mkVec 0 0 0) t_min t_max = (Infinity, None)
  /\ TraceRay scene O (mkVec 0 0 0) t_min t_max = BACKGROUND_COLOR
  /\ Unlit.TraceRay (spheres scene) O (mkVec 0 0 0) t_min t_max
     = Unlit.BACKGROUND_COLOR.
Proof.
  pose proof (closest_hit_least (spheres scene) O (mkVec 0 0 0) t_min t_max)
    as H.
  unfold TraceRay, Unlit.TraceRay.
  destruct (closest_hit (spheres scene) O (mkVec 0 0 0) t_min t_max)
    as [[t| | |] [s|]]; try contradiction.
  - exfalso. destruct H as [(a & _ & [Hroot _]) _].
    unfold is_root in Hroot.
    rewrite IntersectRaySphere_zero_direction in Hroot
      by (unfold dot; simpl; ring).
    destruct Hroot; discriminate.
  - repeat split.
Qed.

(** A sphere of radius 0 hit at its centre: the normal is [NaN], the
    point light adds nothing, and the colour is black. *)
Lemma TraceRay_radius_zero :
  let dot0 := mkSphere (mkVec 0 0 3) 0 (mkColor 255 0 0) (-1) in
  TraceRay (mkScene [dot0] [point 1 (mkVec 0 5 3)]) O (mkVec 0 0 1)
    (Fin 1) Infinity
  = mkColor 0 0 0.
Proof.
  intros dot0.
  assert (Hroots : IntersectRaySphere O (mkVec 0 0 1) dot0 = (Fin 3, Fin 3)).
  { rewrite (IntersectRaySphere_hit _ _ _ 0)
      by (unfold dot, O, dot0; simpl; lra).
    unfold dot, O. simpl. f_equal; f_equal; field. }
  assert (H : closest_hit [dot0] O (mkVec 0 0 1) (Fin 1) Infinity
              = (Fin 3, Some dot0)).
  { unfold closest_hit, fold_left, closest_step. rewrite Hroots.
    eval_try_root. reflexivity. }
  rewrite (TraceRay_hit (mkScene [dot0] [point 1 (mkVec 0 5 3)])
             _ _ _ _ 3 dot0 H).
  cbv zeta.
  assert (Hlen : length (subtract (add O (multiply (mkVec 0 0 1) 3))
                           (center dot0)) = 0).
  { unfold length, subtract, add, multiply, O. simpl.
    replace ((0 + 1 * 3 - 3) * (0 + 1 * 3 - 3)) with 0 by ring.
    replace ((0 + 0 * 3 - 0) * (0 + 0 * 3 - 0) + (0 + 0 * 3 - 0)
             * (0 + 0 * 3 - 0) + 0) with 0 by ring.
    apply sqrt_0. }
  rewrite Hlen. destruct (Req_dec_T 0 0) as [_ | Hne]; [|contradiction].
  unfold ComputeLighting_NaN_normal. simpl. f_equal; ring.
Qed.
